(** * libffi-rs: the C support layer for type descriptors and closures

    This development embeds the two C translation units of the repository

      - [examples/c/support.c]: [ffi_type_destroy], [ffi_type_destroy_array],
        [ffi_type_clone], [ffi_type_clone_array];
      - [src/c/test.c]: [callback] and [main];

    over an explicit block-structured heap, and proves the properties that
    the specification states about them. *)

From stdpp Require Import base numbers option list gmap sets.

Set Warnings "-register-all".

(** ** Pointers, descriptors and memory blocks *)

(** A pointer names a memory block; [NULL] is the null pointer, which also
    serves as the sentinel of descriptor arrays. *)
Abbreviation ptr := N (only parsing).
Definition NULL : ptr := 0%N.

(** Modelled from the spec: [struct ffi_type] of <ffi.h>, which is not in the
    repository. A descriptor has the scalar attributes size, alignment and
    type tag, and [elements], the sentinel-terminated array of its children. *)
Record ffi_type := Build_ffi_type {
  size : N;
  alignment : N;
  type : N;
  elements : ptr
}.

(** What a block holds: one [ffi_type], or an array of [ffi_type*] slots.
    [None] is the indeterminate value of storage that [malloc] has returned
    and that has not been written yet. *)
Inductive content :=
  | CType (v : option ffi_type)
  | CArray (slots : list (option ptr)).

(** [blk_malloc] tells the blocks obtained from [malloc], the only ones that
    [free] accepts, from static storage such as [ffi_type_sint]. *)
Record block := Block {
  blk_malloc : bool;
  blk_content : content
}.

(** Ghost record of the memory operations that the properties below speak
    about: allocation, release, and reads of array slots. *)
Inductive event :=
  | EvMalloc (p : ptr)
  | EvFree (p : ptr)
  | EvRead (p : ptr) (i : nat).

Record state := State {
  heap : gmap N block;
  trace : list event
}.

Definition log (e : event) (st : state) : state :=
  State (heap st) (trace st ++ [e]).

Definition set_heap (f : gmap N block → gmap N block) (st : state) : state :=
  State (f (heap st)) (trace st).

(** ** The monad of C computations *)

(** [Undefined] is undefined behaviour (a read of unallocated or
    indeterminate storage, an out-of-bounds access, a bad [free]);
    [Aborted] is a failed [assert]; [OutOfFuel] belongs to the model only. *)
Inductive outcome (A : Type) :=
  | Done (a : A) (st : state)
  | Undefined
  | Aborted
  | OutOfFuel.
Arguments Done {A} a st.
Arguments Undefined {A}.
Arguments Aborted {A}.
Arguments OutOfFuel {A}.

Definition M (A : Type) : Type := state → outcome A.

Definition ret {A} (a : A) : M A := λ st, Done a st.

Definition bind {A B} (m : M A) (k : A → M B) : M B := λ st,
  match m st with
  | Done a st' => k a st'
  | Undefined => Undefined
  | Aborted => Aborted
  | OutOfFuel => OutOfFuel
  end.

Definition out_of_fuel {A} : M A := λ _, OutOfFuel.

#[global] Instance M_ret : MRet M := @ret.
#[global] Instance M_bind : MBind M := λ A B k m, bind m k.

(** ** Memory primitives *)

Definition is_null (p : ptr) : bool := bool_decide (p = NULL).

(** [assert(b)] of <assert.h>. *)
Definition assert (b : bool) : M unit := λ st,
  if b then Done tt st else Aborted.

(** Read the [ffi_type] that [p] points to. *)
Definition load_type (p : ptr) : M ffi_type := λ st,
  match heap st !! p with
  | Some (Block _ (CType (Some t))) => Done t st
  | _ => Undefined
  end.

(** Read [p->type] and [p->elements]. *)
Definition load_tag (p : ptr) : M N := t ← load_type p; ret (type t).
Definition load_elements (p : ptr) : M ptr := t ← load_type p; ret (elements t).

(** Read [p[i]]. *)
Definition load_slot (p : ptr) (i : nat) : M ptr := λ st,
  match heap st !! p with
  | Some (Block _ (CArray slots)) =>
      match slots !! i with
      | Some (Some v) => Done v (log (EvRead p i) st)
      | _ => Undefined
      end
  | _ => Undefined
  end.

(** [p[i] = v]. *)
Definition store_slot (p : ptr) (i : nat) (v : ptr) : M unit := λ st,
  match heap st !! p with
  | Some (Block m (CArray slots)) =>
      if bool_decide (i < length slots)
      then Done tt (set_heap <[p := Block m (CArray (<[i := Some v]> slots))]> st)
      else Undefined
  | _ => Undefined
  end.

(** [p->elements = v]. *)
Definition store_elements (p : ptr) (v : ptr) : M unit := λ st,
  match heap st !! p with
  | Some (Block m (CType (Some t))) =>
      Done tt (set_heap
        <[p := Block m (CType (Some (Build_ffi_type (size t) (alignment t) (type t) v)))]> st)
  | _ => Undefined
  end.

(** [memcpy(dst, src, sizeof(ffi_type))]. *)
Definition memcpy_type (dst src : ptr) : M unit := λ st,
  match heap st !! dst, heap st !! src with
  | Some (Block m (CType _)), Some (Block _ (CType (Some t))) =>
      Done tt (set_heap <[dst := Block m (CType (Some t))]> st)
  | _, _ => Undefined
  end.

(** [free(p)]: a no-op on [NULL]; otherwise [p] must be a live block that
    [malloc] returned. *)
Definition free (p : ptr) : M unit := λ st,
  if is_null p then Done tt st
  else match heap st !! p with
       | Some (Block true _) =>
           Done tt (State (delete p (heap st)) (trace st ++ [EvFree p]))
       | _ => Undefined
       end.

(** ** [src/c/test.c]: a closure over [callback] *)

Module Closure.

(** C [int]: 32 bits, two's complement. *)
Definition INT_MIN : Z := (-2147483648)%Z.
Definition INT_MAX : Z := 2147483647%Z.

(** [x + y] on [int]; signed overflow is undefined. *)
Definition int_add (x y : Z) : option Z :=
  let s := (x + y)%Z in
  if bool_decide (INT_MIN ≤ s ≤ INT_MAX)%Z then Some s else None.

(** Memory cells of the test program: an [int], a pointer, or storage that
    has not been written. *)
Inductive value :=
  | VInt (n : Z)
  | VPtr (a : N)
  | VUndef.

Definition load_int (a : N) (m : gmap N value) : option Z :=
  match m !! a with Some (VInt n) => Some n | _ => None end.

Definition load_ptr (a : N) (m : gmap N value) : option N :=
  match m !! a with Some (VPtr p) => Some p | _ => None end.

Definition store (a : N) (v : value) (m : gmap N value) : option (gmap N value) :=
  match m !! a with Some _ => Some (<[a := v]> m) | None => None end.

(** Modelled from the spec: the static descriptors, the calling conventions
    and the status codes of <ffi.h>, which is not in the repository, as far
    as the test names them. *)
Inductive static_type := ffi_type_sint | ffi_type_void.
Inductive ffi_abi := FFI_DEFAULT_ABI | FFI_UNSUPPORTED_ABI.
Inductive ffi_status := FFI_OK | FFI_BAD_TYPEDEF | FFI_BAD_ABI | FFI_BAD_ARGTYPE.

#[global] Instance ffi_status_eq_dec : EqDecision ffi_status.
Proof. solve_decision. Defined.

(** Modelled from the spec: the call interface, with its calling
    convention, argument count, argument types and return type. *)
Record ffi_cif := Build_ffi_cif {
  cif_abi : ffi_abi;
  cif_nargs : nat;
  cif_arg_types : list static_type;
  cif_rtype : static_type
}.

(** The type of a host callback:
    [void (cif, void *result, void **args, void *userdata)]. *)
Definition closure_fun : Type :=
  ffi_cif → N → N → N → gmap N value → option (gmap N value).

(** [callback] of test.c: the [int] at [userdata] plus the [int] that the
    first argument pointer refers to, written to [result]. *)
Definition callback : closure_fun := λ cif result args userdata m,
  env ← load_int userdata m;
  arg0 ← load_ptr args m;
  x ← load_int arg0 m;
  s ← int_add env x;
  store result (VInt s) m.

(** Modelled from the spec: [ffi_prep_cif] of libffi, which is not in the
    repository. It rejects an unsupported calling convention and an argument
    count that is not the length of the argument array, and otherwise
    returns the call interface, which borrows the types. *)
Definition ffi_prep_cif (abi : ffi_abi) (nargs : nat) (rtype : static_type)
    (atypes : list static_type) : ffi_status * ffi_cif :=
  let cif := Build_ffi_cif abi nargs atypes rtype in
  match abi with
  | FFI_UNSUPPORTED_ABI => (FFI_BAD_ABI, cif)
  | FFI_DEFAULT_ABI =>
      if bool_decide (length atypes = nargs) then (FFI_OK, cif)
      else (FFI_BAD_TYPEDEF, cif)
  end.

(** Modelled from the spec: the closure of libffi and its states. *)
Inductive closure :=
  | Unbound
  | Bound (cif : ffi_cif) (fn : closure_fun) (user_data : N)
  | Invalidated.

(** Modelled from the spec: [ffi_closure_alloc]. *)
Definition ffi_closure_alloc : closure := Unbound.

(** Modelled from the spec: [ffi_prep_closure_loc] binds an unbound closure;
    a second binding is an error and leaves the first in place. *)
Definition ffi_prep_closure_loc (cl : closure) (cif : ffi_cif) (fn : closure_fun)
    (user_data : N) : ffi_status * closure :=
  match cl with
  | Unbound => (FFI_OK, Bound cif fn user_data)
  | _ => (FFI_BAD_TYPEDEF, cl)
  end.

(** Modelled from the spec: the first address above every cell in use,
    where the trampoline lays out its frame. *)
Definition top (m : gmap N value) : N :=
  N.succ (map_fold (λ a _ acc, N.max a acc) 0%N m).

(** Modelled from the spec: the trampoline lays out [vals] from address [a]
    on. *)
Fixpoint write_cells (a : N) (vals : list value) (m : gmap N value) : gmap N value :=
  match vals with
  | [] => m
  | v :: vals' => write_cells (N.succ a) vals' (<[a := v]> m)
  end.

(** Modelled from the spec: what a call of the entry point of a bound
    closure does. The host callback runs on the call interface, a result
    buffer, an array with one pointer per declared argument, in order, each to
    the value that the caller passed, and the bound context; the call returns
    what the callback left in the result buffer. The frame is laid out above
    the memory in use (the result buffer, the argument values, the pointers)
    and is dropped on return. *)
Definition call_closure (cl : closure) (actuals : list Z) (m : gmap N value)
    : option (Z * gmap N value) :=
  match cl with
  | Bound cif fn user_data =>
      if bool_decide (length actuals = cif_nargs cif) then
        let result := top m in
        let vals := N.succ result in
        let n := N.of_nat (length actuals) in
        let args := (vals + n)%N in
        let ptrs := (λ i, VPtr (vals + N.of_nat i)%N) <$> seq 0 (length actuals) in
        let frame := write_cells args ptrs
                       (write_cells vals (VInt <$> actuals) (<[result := VUndef]> m)) in
        m' ← fn cif result args user_data frame;
        r ← load_int result m';
        Some (r, filter (λ kv, (kv.1 < result)%N) m')
      else None
  | _ => None
  end.

(** [main] of test.c; the result is what it prints, one [int] per line, or
    [None] when an [assert] fails or a call is undefined. [env] lives at
    address 1. *)
Definition main : option (list Z) :=
  let env := 1%N in
  let m := {[env := VInt 5]} in
  let '(status, cif) := ffi_prep_cif FFI_DEFAULT_ABI 1 ffi_type_sint [ffi_type_sint] in
  if bool_decide (status = FFI_OK) then
    let closure := ffi_closure_alloc in
    let '(status', fn) := ffi_prep_closure_loc closure cif callback env in
    if bool_decide (status' = FFI_OK) then
      '(r1, m1) ← call_closure fn [6%Z] m;
      '(r2, m2) ← call_closure fn [7%Z] m1;
      Some [r1; r2]
    else None
  else None.

End Closure.

(** Closed goals about concrete heaps and trees are settled by evaluation. *)
Ltac evaluate :=
  repeat first
    [ split
    | apply Forall_nil_2
    | apply Forall_cons_2
    | progress simpl
    | reflexivity
    | discriminate
    | lia
    | compute_done ].

(** ** [examples/c/support.c]: cloning and destroying descriptors *)

Section Support.

Set Default Proof Using "Type".

(** The two aggregate tags come from <ffi.h>, which is not part of the
    repository; [include_ffi.h] re-exports them because their values are
    the platform's. *)
Variables FFI_TYPE_STRUCT FFI_TYPE_COMPLEX : N.

(** The allocator: the address that [malloc] returns in a given state,
    [NULL] when it fails.  It may depend on the whole history. *)
Variable malloc_addr : state → ptr.

(** [malloc] returns [NULL] or a block that is not live. *)
Definition malloc_sound : Prop :=
  ∀ st, malloc_addr st ≠ NULL → heap st !! malloc_addr st = None.

(** The allocator never fails. *)
Definition malloc_total : Prop :=
  ∀ st, malloc_addr st ≠ NULL.

Definition malloc (c : content) : M ptr := λ st,
  let p := malloc_addr st in
  if is_null p then Done NULL st
  else Done p (State (<[p := Block true c]> (heap st)) (trace st ++ [EvMalloc p])).

(** [type->type == FFI_TYPE_STRUCT || type->type == FFI_TYPE_COMPLEX] *)
Definition is_aggregate (tag : N) : bool :=
  bool_decide (tag = FFI_TYPE_STRUCT) || bool_decide (tag = FFI_TYPE_COMPLEX).

(** ** [ffi_type_destroy] and [ffi_type_destroy_array] *)

(** The loop of [ffi_type_destroy_array]: [curr] is [types + i]; each
    iteration reads the slot for the test against [NULL], and when the test
    passes reads it again for the argument of [ffi_type_destroy]. *)
Fixpoint destroy_loop (destroy : ptr → M unit) (fuel : nat)
    (types : ptr) (i : nat) : M unit :=
  match fuel with
  | O => out_of_fuel
  | S fuel' =>
      c ← load_slot types i;
      if is_null c then ret tt
      else
        arg ← load_slot types i;
        destroy arg;;
        destroy_loop destroy fuel' types (S i)
  end.

Definition destroy_array_body (destroy : ptr → M unit) (fuel : nat)
    (types : ptr) : M unit :=
  destroy_loop destroy fuel types 0;;
  free types.

Fixpoint ffi_type_destroy (fuel : nat) (type_ : ptr) : M unit :=
  match fuel with
  | O => out_of_fuel
  | S fuel' =>
      if is_null type_ then ret tt
      else
        tag ← load_tag type_;
        if is_aggregate tag then
          es ← load_elements type_;
          destroy_array_body (ffi_type_destroy fuel') fuel' es;;
          free type_
        else ret tt
  end.

Definition ffi_type_destroy_array (fuel : nat) (types : ptr) : M unit :=
  destroy_array_body (ffi_type_destroy fuel) fuel types.

(** ** [ffi_type_clone] and [ffi_type_clone_array] *)

(** The first loop of [ffi_type_clone_array]: [size] starts at 1 and counts
    one more for every slot before the first [NULL]. *)
Fixpoint size_loop (fuel : nat) (types : ptr) (i : nat) (sz : nat) : M nat :=
  match fuel with
  | O => out_of_fuel
  | S fuel' =>
      c ← load_slot types i;
      if is_null c then ret sz
      else size_loop fuel' types (S i) (S sz)
  end.

(** [for (i = 0; i < size; ++i) copy[i] = ffi_type_clone(types[i]);]
    where [n] is the number of iterations left, [size - i]. *)
Fixpoint clone_loop (clone : ptr → M ptr) (n : nat)
    (types copy : ptr) (i : nat) : M unit :=
  match n with
  | O => ret tt
  | S n' =>
      t ← load_slot types i;
      c ← clone t;
      store_slot copy i c;;
      clone_loop clone n' types copy (S i)
  end.

Definition clone_array_body (clone : ptr → M ptr) (fuel : nat)
    (types : ptr) : M ptr :=
  sz ← size_loop fuel types 0 1;
  copy ← malloc (CArray (replicate sz None));
  assert (negb (is_null copy));;
  clone_loop clone sz types copy 0;;
  ret copy.

Fixpoint ffi_type_clone (fuel : nat) (type_ : ptr) : M ptr :=
  match fuel with
  | O => out_of_fuel
  | S fuel' =>
      if is_null type_ then ret NULL
      else
        tag ← load_tag type_;
        if is_aggregate tag then
          copy ← malloc (CType None);
          assert (negb (is_null copy));;
          memcpy_type copy type_;;
          es ← load_elements type_;
          arr ← clone_array_body (ffi_type_clone fuel') fuel' es;
          store_elements copy arr;;
          ret copy
        else ret type_
  end.

Definition ffi_type_clone_array (fuel : nat) (types : ptr) : M ptr :=
  clone_array_body (ffi_type_clone fuel) fuel types.

(** ** Descriptor trees laid out in a heap *)

(** The tree that a descriptor pointer denotes: the address and the value
    of every node, the children of an aggregate in array order, and
    whatever its array block holds after the sentinel. *)
Inductive tree :=
  | Atom (p : ptr) (t : ffi_type)
  | Agg (p : ptr) (t : ffi_type) (children : list tree) (rest : list (option ptr)).

Definition root (t : tree) : ptr :=
  match t with Atom p _ => p | Agg p _ _ _ => p end.

(** A sentinel-terminated array: the entries, the sentinel, then slots that
    no consumer may look at. *)
Definition slots_of (ps : list ptr) (rest : list (option ptr)) : list (option ptr) :=
  (Some <$> ps) ++ Some NULL :: rest.

Definition content_at (h : gmap N block) (p : ptr) : option content :=
  blk_content <$> h !! p.

Definition malloced (h : gmap N block) (p : ptr) : Prop :=
  blk_malloc <$> h !! p = Some true.

(** [valid h t]: the heap holds [t]. Sharing between subtrees and static
    aggregates are allowed. *)
Fixpoint valid (h : gmap N block) (t : tree) : Prop :=
  match t with
  | Atom p ty =>
      p ≠ NULL ∧ content_at h p = Some (CType (Some ty)) ∧
      is_aggregate (type ty) = false
  | Agg p ty cs rest =>
      p ≠ NULL ∧ content_at h p = Some (CType (Some ty)) ∧
      is_aggregate (type ty) = true ∧ elements ty ≠ NULL ∧
      Forall (λ c, c ≠ NULL) (root <$> cs) ∧
      content_at h (elements ty) = Some (CArray (slots_of (root <$> cs) rest)) ∧
      foldr (λ c P, valid h c ∧ P) True cs
  end.

(** The storage that a tree owns, in the order in which [ffi_type_destroy]
    releases it: the subtrees in index order, the child array, the node. *)
Fixpoint freed (t : tree) : list ptr :=
  match t with
  | Atom _ _ => []
  | Agg p ty cs _ => (cs ≫= freed) ++ [elements ty; p]
  end.

(** Every address of the tree, the shared atomic descriptors included. *)
Fixpoint addrs (t : tree) : list ptr :=
  match t with
  | Atom p _ => [p]
  | Agg p ty cs _ => (cs ≫= addrs) ++ [elements ty; p]
  end.

(** [owned h t]: [t] is in the heap, its aggregate nodes and arrays are
    [malloc]ed, and no two of them are the same block. *)
Definition owned (h : gmap N block) (t : tree) : Prop :=
  valid h t ∧ NoDup (freed t) ∧ Forall (malloced h) (freed t).

(** A descriptor array with exclusively owned entries. *)
Definition owned_array (h : gmap N block) (types : ptr) (cs : list tree)
    (rest : list (option ptr)) : Prop :=
  types ≠ NULL ∧
  Forall (λ c, c ≠ NULL) (root <$> cs) ∧
  content_at h types = Some (CArray (slots_of (root <$> cs) rest)) ∧
  Forall (valid h) cs ∧
  NoDup ((cs ≫= freed) ++ [types]) ∧
  Forall (malloced h) ((cs ≫= freed) ++ [types]).

(** Fuel that suffices for a tree: one unit per call depth, and enough for
    the loops over the longest array. *)
Fixpoint fuel_of (t : tree) : nat :=
  match t with
  | Atom _ _ => 1
  | Agg _ _ cs _ => S (S (length cs) `max` max_list (fuel_of <$> cs))
  end.

Definition fuel_of_array (cs : list tree) : nat :=
  S (length cs) `max` max_list (fuel_of <$> cs).

(** The heap after releasing the blocks [l], first to last. *)
Definition deletes (l : list ptr) (h : gmap N block) : gmap N block :=
  foldl (λ h a, delete a h) h l.

(** The events of the loop of [ffi_type_destroy_array] from index [i] on,
    given the events of destroying each remaining entry. *)
Fixpoint loop_trace (arr : ptr) (i : nat) (trs : list (list event)) : list event :=
  match trs with
  | [] => [EvRead arr i]
  | tr :: trs' => EvRead arr i :: EvRead arr i :: tr ++ loop_trace arr (S i) trs'
  end.

Definition array_trace (arr : ptr) (trs : list (list event)) : list event :=
  loop_trace arr 0 trs ++ [EvFree arr].

(** The events of [ffi_type_destroy] on a tree. *)
Fixpoint destroy_trace (t : tree) : list event :=
  match t with
  | Atom _ _ => []
  | Agg p ty cs _ => array_trace (elements ty) (destroy_trace <$> cs) ++ [EvFree p]
  end.

(** [clone_rel t t']: [t'] has the shape of [t], with the same atomic
    descriptors, and aggregates that agree on size, alignment and tag. *)
Inductive clone_rel : tree → tree → Prop :=
  | clone_rel_atom p ty :
      clone_rel (Atom p ty) (Atom p ty)
  | clone_rel_agg p ty cs rest p' arr' cs' :
      Forall2 clone_rel cs cs' →
      clone_rel (Agg p ty cs rest)
        (Agg p' (Build_ffi_type (size ty) (alignment ty) (type ty) arr') cs' []).

(** An address that holds an atomic descriptor. *)
Definition atomic_at (h : gmap N block) (a : ptr) : Prop :=
  ∃ ty, content_at h a = Some (CType (Some ty)) ∧ is_aggregate (type ty) = false.

(** The state that [ffi_type_destroy] leaves, and those of the loop and of
    [ffi_type_destroy_array]. *)
Definition destroy_post (st : state) (t : tree) : state :=
  State (deletes (freed t) (heap st)) (trace st ++ destroy_trace t).

Definition destroy_loop_post (st : state) (arr : ptr) (i : nat)
    (cs : list tree) : state :=
  State (deletes (cs ≫= freed) (heap st))
        (trace st ++ loop_trace arr i (destroy_trace <$> cs)).

Definition destroy_array_post (st : state) (arr : ptr) (cs : list tree) : state :=
  State (deletes ((cs ≫= freed) ++ [arr]) (heap st))
        (trace st ++ array_trace arr (destroy_trace <$> cs)).

(** [h'] is [h] plus the fresh blocks [F]. *)
Definition extends_by (h h' : gmap N block) (F : list ptr) : Prop :=
  (∀ a, a ∈ F → h !! a = None) ∧ (∀ a, a ∉ F → h' !! a = h !! a).

Definition clone_post (h h' : gmap N block) (t t' : tree) : Prop :=
  clone_rel t t' ∧ owned h' t' ∧ extends_by h h' (freed t').

Definition clone_ok (fuel : nat) (t : tree) : Prop :=
  ∀ st, valid (heap st) t →
    ∃ t' st', ffi_type_clone fuel (root t) st = Done (root t') st'
              ∧ clone_post (heap st) (heap st') t t'.

(** [destroy_each destroy types i ps st st']: from [st], and for each entry
    of [ps] in turn, slot [i], [i+1], ... of [types] is read, twice, and
    [destroy] is run on the entry, and returns; [st'] is the state reached. *)
Inductive destroy_each (destroy : ptr → M unit) (types : ptr) :
    nat → list ptr → state → state → Prop :=
  | destroy_each_nil i st :
      destroy_each destroy types i [] st st
  | destroy_each_cons i p ps st st1 st2 :
      destroy p (log (EvRead types i) (log (EvRead types i) st)) = Done tt st1 →
      destroy_each destroy types (S i) ps st1 st2 →
      destroy_each destroy types i (p :: ps) st st2.

(** [clone_each clone types copy i ps cs st st']: likewise, [clone] is run on
    each entry of [ps], returns the entry of [cs] at the same position, and
    that is stored in the slot of [copy] with the same index. *)
Inductive clone_each (clone : ptr → M ptr) (types copy : ptr) :
    nat → list ptr → list ptr → state → state → Prop :=
  | clone_each_nil i st :
      clone_each clone types copy i [] [] st st
  | clone_each_cons i p ps c cs st st1 st2 st3 :
      clone p (log (EvRead types i) st) = Done c st1 →
      store_slot copy i c st1 = Done tt st2 →
      clone_each clone types copy (S i) ps cs st2 st3 →
      clone_each clone types copy i (p :: ps) (c :: cs) st st3.

(** The blocks that a trace releases, in order. *)
Definition frees_of (tr : list event) : list ptr :=
  omap (λ e, match e with EvFree p => Some p | _ => None end) tr.

(** The slots that the loop of [ffi_type_destroy_array] reads in an array
    of [n] entries, from index [i] on: each entry twice, then the sentinel. *)
Definition loop_reads (i n : nat) : list nat :=
  (seq i n ≫= λ j, [j; j]) ++ [i + n].

(** The slots of [arr] that a trace reads, in order. *)
Definition reads_of (arr : ptr) (tr : list event) : list nat :=
  omap (λ e, match e with
             | EvRead p i => if bool_decide (p = arr) then Some i else None
             | _ => None
             end) tr.

(** The nodes of a tree, and the blocks that a node owns: an aggregate owns
    its descriptor and its child array, an atomic descriptor owns nothing. *)
Fixpoint subtrees (t : tree) : list tree :=
  t :: match t with
       | Atom _ _ => []
       | Agg _ _ cs _ => cs ≫= subtrees
       end.

Definition owns (s : tree) (a : ptr) : Prop :=
  match s with
  | Atom _ _ => False
  | Agg p ty _ _ => a = p ∨ a = elements ty
  end.

(** The atomic descriptors that a tree refers to. *)
Fixpoint atoms (t : tree) : list ptr :=
  match t with
  | Atom p _ => [p]
  | Agg _ _ cs _ => cs ≫= atoms
  end.

(** A concrete allocator and a concrete heap, to run the functions on:
    [ffi_type_sint] in static storage at 1, and at 2 a [malloc]ed
    [struct { int; struct { int; }; }] whose child array has an unwritten
    slot after its sentinel. *)
Definition fresh_block (st : state) : ptr := fresh ({[NULL]} ∪ dom (heap st)).

Definition sint : ffi_type := Build_ffi_type 4 4 10 NULL.
Definition inner_struct : ffi_type := Build_ffi_type 4 4 13 5.
Definition outer_struct : ffi_type := Build_ffi_type 8 4 13 3.

Definition sample_heap : gmap N block :=
  <[1%N := Block false (CType (Some sint))]>
  (<[2%N := Block true (CType (Some outer_struct))]>
  (<[3%N := Block true (CArray [Some 1%N; Some 4%N; Some NULL; None])]>
  (<[4%N := Block true (CType (Some inner_struct))]>
  (<[5%N := Block true (CArray [Some 1%N; Some NULL])]> ∅)))).

Definition sample_inner : tree := Agg 4 inner_struct [Atom 1 sint] [].
Definition sample_tree : tree :=
  Agg 2 outer_struct [Atom 1 sint; sample_inner] [None].
Definition sample_state : state := State sample_heap [].

(** The blocks that a trace allocates, in order. *)
Definition mallocs_of (tr : list event) : list ptr :=
  omap (λ e, match e with EvMalloc p => Some p | _ => None end) tr.

(** The number of aggregate nodes of a tree. *)
Fixpoint aggregates (t : tree) : nat :=
  match t with
  | Atom _ _ => 0
  | Agg _ _ cs _ => S (sum_list (aggregates <$> cs))
  end.

(** [releases_only m]: a run of [m] that returns has allocated nothing, has
    released only blocks that [malloc] had returned and that were live, each
    once, and has changed the heap in no other way. *)
Definition releases_only {A} (m : M A) : Prop :=
  ∀ st a st', m st = Done a st' →
    ∃ tr, trace st' = trace st ++ tr ∧
      mallocs_of tr = [] ∧
      NoDup (frees_of tr) ∧
      Forall (malloced (heap st)) (frees_of tr) ∧
      heap st' = deletes (frees_of tr) (heap st).

(** [keeps_blocks m]: a run of [m] that returns has released nothing, and
    every block that was live is still live. *)
Definition keeps_blocks {A} (m : M A) : Prop :=
  ∀ st a st', m st = Done a st' →
    ∃ tr, trace st' = trace st ++ tr ∧
      frees_of tr = [] ∧
      dom (heap st) ⊆ dom (heap st').

(** An allocator that has run out of memory. *)
Definition no_memory (st : state) : ptr := NULL.

(** More heaps to run the functions on: one where both entries of the array
    at 3 are the aggregate at 4; one where the aggregate at 2 is in static
    storage; one where the array at 7 has no sentinel. *)
Definition shared_heap : gmap N block :=
  <[3%N := Block true (CArray [Some 4%N; Some 4%N; Some NULL])]> sample_heap.
Definition shared_tree : tree :=
  Agg 2 outer_struct [sample_inner; sample_inner] [].

Definition static_heap : gmap N block :=
  <[2%N := Block false (CType (Some outer_struct))]> sample_heap.

Definition unterminated_heap : gmap N block :=
  <[1%N := Block false (CType (Some sint))]>
  (<[7%N := Block true (CArray [Some 1%N; Some 1%N])]> ∅).

(** Assumptions on the allocator for the runs that must succeed. *)
Hypothesis malloc_is_sound : malloc_sound.
Hypothesis malloc_is_total : malloc_total.

(** ** Basic facts about the monad and the memory primitives *)

Lemma tree_ind' (P : tree → Prop) :
  (∀ p ty, P (Atom p ty)) →
  (∀ p ty cs rest, Forall P cs → P (Agg p ty cs rest)) →
  ∀ t, P t.
Proof.
  intros Hatom Hagg. fix IH 1. intros [p ty|p ty cs rest]; [apply Hatom|].
  apply Hagg. induction cs as [|c cs IHcs]; constructor; auto.
Qed.

Lemma bind_done {A B} (m : M A) (k : A → M B) st a st' :
  m st = Done a st' → (m ≫= k) st = k a st'.
Proof. intros H. unfold mbind, M_bind, bind. by rewrite H. Qed.

Lemma content_at_Some h p c :
  content_at h p = Some c ↔ ∃ m, h !! p = Some (Block m c).
Proof.
  unfold content_at. split.
  - destruct (h !! p) as [[m c']|]; simpl; intros [= ->]; eauto.
  - intros [m ->]. done.
Qed.

Lemma load_type_done st p t :
  content_at (heap st) p = Some (CType (Some t)) → load_type p st = Done t st.
Proof. intros [m H]%content_at_Some. unfold load_type. by rewrite H. Qed.

Lemma load_tag_done st p t :
  content_at (heap st) p = Some (CType (Some t)) → load_tag p st = Done (type t) st.
Proof. intros H. unfold load_tag. by rewrite (bind_done _ _ _ _ _ (load_type_done _ _ _ H)). Qed.

Lemma load_elements_done st p t :
  content_at (heap st) p = Some (CType (Some t)) →
  load_elements p st = Done (elements t) st.
Proof. intros H. unfold load_elements. by rewrite (bind_done _ _ _ _ _ (load_type_done _ _ _ H)). Qed.

Lemma load_slot_done st p slots i v :
  content_at (heap st) p = Some (CArray slots) → slots !! i = Some (Some v) →
  load_slot p i st = Done v (log (EvRead p i) st).
Proof. intros [m H]%content_at_Some Hi. unfold load_slot. by rewrite H, Hi. Qed.

Lemma free_done st p :
  p ≠ NULL → malloced (heap st) p →
  free p st = Done tt (State (delete p (heap st)) (trace st ++ [EvFree p])).
Proof.
  intros Hp Hm. unfold free, is_null, malloced in *.
  rewrite bool_decide_false by done.
  destruct (heap st !! p) as [[[] c]|]; simpl in *; by simplify_eq.
Qed.

Lemma slots_of_lookup_entry ps rest i p :
  ps !! i = Some p → slots_of ps rest !! i = Some (Some p).
Proof.
  intros H. unfold slots_of. rewrite lookup_app_l.
  - by rewrite list_lookup_fmap, H.
  - rewrite length_fmap. by eapply lookup_lt_Some.
Qed.

Lemma slots_of_lookup_sentinel ps rest :
  slots_of ps rest !! length ps = Some (Some NULL).
Proof.
  unfold slots_of. rewrite lookup_app_r; rewrite length_fmap; [|done].
  by rewrite Nat.sub_diag.
Qed.

Lemma lookup_deletes l h a :
  deletes l h !! a = if decide (a ∈ l) then None else h !! a.
Proof.
  unfold deletes. revert h. induction l as [|x l IH]; intros h; simpl.
  - destruct (decide (a ∈ [])) as [Hin|]; [by apply elem_of_nil in Hin|done].
  - rewrite IH. destruct (decide (a ∈ x :: l)) as [Hin|Hnin].
    + apply elem_of_cons in Hin as [->|Hin].
      * rewrite lookup_delete_eq. by destruct (decide _).
      * by rewrite decide_True.
    + apply not_elem_of_cons in Hnin as [Hne Hnin].
      rewrite decide_False by done. by rewrite lookup_delete_ne.
Qed.

Lemma deletes_app l1 l2 h : deletes (l1 ++ l2) h = deletes l2 (deletes l1 h).
Proof. unfold deletes. apply foldl_app. Qed.

Lemma valid_children h cs :
  foldr (λ c P, valid h c ∧ P) True cs ↔ Forall (valid h) cs.
Proof.
  induction cs as [|c cs IH]; simpl.
  - split; [constructor|done].
  - rewrite Forall_cons. by rewrite IH.
Qed.

Lemma elem_of_bind_tree {A} (f : tree → list A) cs a :
  a ∈ cs ≫= f ↔ ∃ c, c ∈ cs ∧ a ∈ f c.
Proof.
  rewrite list_elem_of_bind. split; intros (c & H1 & H2); by exists c.
Qed.

Lemma valid_freed_kind h t a : valid h t → a ∈ freed t → ¬ atomic_at h a.
Proof.
  induction t as [p ty|p ty cs rest IH] using tree_ind'; simpl.
  - by intros _ ?%elem_of_nil.
  - intros (Hp & Hc & Hagg & Hes & Hnn & Harr & Hcs) Hin (ty' & Hty' & Hat).
    apply valid_children in Hcs.
    apply elem_of_app in Hin as [Hin|Hin].
    + apply elem_of_bind_tree in Hin as (c & Hc' & Hin).
      rewrite Forall_forall in IH, Hcs.
      apply (IH c Hc' (Hcs c Hc') Hin). by exists ty'.
    + apply elem_of_cons in Hin as [->|Hin]; [congruence|].
      apply list_elem_of_singleton in Hin as ->. congruence.
Qed.

Lemma valid_addrs_kind h t a :
  valid h t → a ∈ addrs t → a ∈ freed t ∨ atomic_at h a.
Proof.
  induction t as [p ty|p ty cs rest IH] using tree_ind'; simpl.
  - intros (Hp & Hc & Hat) ->%list_elem_of_singleton. right. by exists ty.
  - intros (Hp & Hc & Hagg & Hes & Hnn & Harr & Hcs) Hin.
    apply valid_children in Hcs.
    apply elem_of_app in Hin as [Hin|Hin].
    + apply elem_of_bind_tree in Hin as (c & Hc' & Hin).
      rewrite Forall_forall in IH, Hcs.
      destruct (IH c Hc' (Hcs c Hc') Hin) as [Hf|Ha]; [left|by right].
      apply elem_of_app. left. apply elem_of_bind_tree. eauto.
    + left. apply elem_of_app. by right.
Qed.

Lemma atoms_atomic h t a : valid h t → a ∈ atoms t → atomic_at h a.
Proof.
  induction t as [p ty|p ty cs rest IH] using tree_ind'; simpl.
  - intros (_ & Hc & Hat) ->%list_elem_of_singleton. by exists ty.
  - intros (_ & _ & _ & _ & _ & _ & Hcs%valid_children) Hin.
    apply elem_of_bind_tree in Hin as (c & Hc & Hin).
    rewrite Forall_forall in IH, Hcs. by apply (IH c Hc); [apply Hcs|].
Qed.

Lemma valid_addrs_live h t a : valid h t → a ∈ addrs t → is_Some (h !! a).
Proof.
  induction t as [p ty|p ty cs rest IH] using tree_ind'; simpl.
  - intros (Hp & [m Hc]%content_at_Some & Hat) ->%list_elem_of_singleton.
    by eexists.
  - intros (Hp & [m Hc]%content_at_Some & Hagg & Hes & Hnn
             & [m' Harr]%content_at_Some & Hcs) Hin.
    apply valid_children in Hcs.
    apply elem_of_app in Hin as [Hin|Hin].
    + apply elem_of_bind_tree in Hin as (c & Hc' & Hin).
      rewrite Forall_forall in IH, Hcs. eauto.
    + apply elem_of_cons in Hin as [->|Hin]; [by eexists|].
      apply list_elem_of_singleton in Hin as ->. by eexists.
Qed.

Lemma freed_addrs t a : a ∈ freed t → a ∈ addrs t.
Proof.
  induction t as [p ty|p ty cs rest IH] using tree_ind'; simpl.
  { by intros ?%elem_of_nil. }
  rewrite !elem_of_app, !elem_of_bind_tree.
  intros [(c & Hc & Hin)|Hin]; [left|by right].
  rewrite Forall_forall in IH. eauto.
Qed.

(** Validity only looks at the blocks of the tree. *)
Lemma valid_agree h h' t :
  (∀ a, a ∈ addrs t → h' !! a = h !! a) → valid h t → valid h' t.
Proof.
  induction t as [p ty|p ty cs rest IH] using tree_ind'; simpl.
  - intros Heq (Hp & Hc & Hat). unfold content_at in *.
    rewrite Heq by apply list_elem_of_singleton, eq_refl. done.
  - intros Heq (Hp & Hc & Hagg & Hes & Hnn & Harr & Hcs).
    unfold content_at in *.
    rewrite !Heq
      by (apply elem_of_app; right; repeat first [by left|right]).
    repeat split; try done.
    apply valid_children. apply valid_children in Hcs.
    rewrite Forall_forall in IH, Hcs. apply Forall_forall. intros c Hc'.
    apply IH; [done| |by apply Hcs].
    intros a Ha. apply Heq. apply elem_of_app. left.
    apply elem_of_bind_tree. eauto.
Qed.

(** Releasing blocks that a tree does not own leaves it valid. *)
Lemma valid_deletes h l t :
  valid h t → (∀ a, a ∈ l → ¬ atomic_at h a) → (∀ a, a ∈ l → a ∉ freed t) →
  valid (deletes l h) t.
Proof.
  intros Hv Hkind Hdisj. eapply valid_agree; [|done].
  intros a Ha. rewrite lookup_deletes. case_decide as Hin; [|done].
  destruct (valid_addrs_kind _ _ _ Hv Ha) as [Hf|Hat].
  - by destruct (Hdisj a Hin).
  - by destruct (Hkind a Hin).
Qed.

Lemma is_null_false p : p ≠ NULL → is_null p = false.
Proof. intros. unfold is_null. by apply bool_decide_false. Qed.

Lemma fuel_of_child c cs : c ∈ cs → fuel_of c ≤ max_list (fuel_of <$> cs).
Proof. intros Hc. apply max_list_elem_of_le. by apply list_elem_of_fmap_2. Qed.

Lemma malloced_deletes h l a :
  malloced h a → a ∉ l → malloced (deletes l h) a.
Proof.
  unfold malloced. intros Hm Hnin. rewrite lookup_deletes.
  by rewrite decide_False.
Qed.

Lemma content_at_deletes h l a :
  a ∉ l → content_at (deletes l h) a = content_at h a.
Proof.
  unfold content_at. intros Hnin. rewrite lookup_deletes.
  by rewrite decide_False.
Qed.

Lemma destroy_loop_post_cons st arr i c todo :
  destroy_loop_post st arr i (c :: todo)
  = destroy_loop_post
      (destroy_post (log (EvRead arr i) (log (EvRead arr i) st)) c) arr (S i) todo.
Proof.
  unfold destroy_loop_post, destroy_post. rewrite bind_cons, deletes_app.
  rewrite fmap_cons. simpl. by rewrite <- !app_assoc.
Qed.

Lemma destroy_loop_spec fuel todo : ∀ done_ rest arr st fuel',
  Forall (λ t, ∀ st, owned (heap st) t →
     ffi_type_destroy fuel (root t) st = Done tt (destroy_post st t)) todo →
  content_at (heap st) arr
    = Some (CArray (slots_of (root <$> (done_ ++ todo)) rest)) →
  Forall (λ c, c ≠ NULL) (root <$> todo) →
  Forall (valid (heap st)) todo →
  NoDup ((todo ≫= freed) ++ [arr]) →
  Forall (malloced (heap st)) (todo ≫= freed) →
  length todo < fuel' →
  destroy_loop (ffi_type_destroy fuel) fuel' arr (length done_) st
  = Done tt (destroy_loop_post st arr (length done_) todo) ∧
  ∃ st1,
    destroy_each (ffi_type_destroy fuel) arr (length done_) (root <$> todo) st st1 ∧
    destroy_loop_post st arr (length done_) todo
    = log (EvRead arr (length done_ + length todo)) st1.
Proof.
  induction todo as [|c todo IH];
    intros done_ rest arr st fuel' Hrec Harr Hnn Hval Hnd Hmal Hfuel;
    (destruct fuel' as [|fuel']; [lia|]); simpl destroy_loop.
  - rewrite app_nil_r in Harr.
    erewrite bind_done; last first.
    { eapply load_slot_done; [done|].
      rewrite <- (length_fmap root). apply slots_of_lookup_sentinel. }
    split; [done|]. exists st. split; [constructor|].
    unfold destroy_loop_post, log. simpl. by rewrite Nat.add_0_r.
  - apply Forall_cons in Hrec as [Hc Hrec].
    rewrite fmap_cons in Hnn. apply Forall_cons in Hnn as [Hcn Hnn].
    apply Forall_cons in Hval as [Hvc Hval].
    rewrite bind_cons in Hnd, Hmal.
    apply Forall_app in Hmal as [Hmc Hmal].
    rewrite <- app_assoc in Hnd.
    apply NoDup_app in Hnd as (Hndc & Hdisj & Hnd).
    assert (Hslot : slots_of (root <$> done_ ++ c :: todo) rest !! length done_
                    = Some (Some (root c))).
    { apply slots_of_lookup_entry.
      rewrite list_lookup_fmap, lookup_app_r, Nat.sub_diag by done. done. }
    erewrite bind_done by (by eapply load_slot_done).
    rewrite is_null_false by done.
    erewrite bind_done by (by eapply load_slot_done).
    set (st0 := log (EvRead arr (length done_)) (log (EvRead arr (length done_)) st)).
    assert (Hrun : ffi_type_destroy fuel (root c) st0 = Done tt (destroy_post st0 c))
      by (apply Hc; by split).
    erewrite bind_done by exact Hrun.
    rewrite destroy_loop_post_cons.
    assert (Hnf : ∀ a, a ∈ freed c → ¬ atomic_at (heap st) a)
      by (intros a; by apply valid_freed_kind).
    destruct (IH (done_ ++ [c]) rest arr (destroy_post st0 c) fuel')
      as (Hloop & st1 & Heach & Hpost); simpl.
    + done.
    + rewrite <- app_assoc. simpl.
      rewrite content_at_deletes; [done|].
      intros Hin. apply (Hdisj _ Hin). apply elem_of_app. right.
      by apply list_elem_of_singleton.
    + done.
    + rewrite Forall_forall in Hval. apply Forall_forall. intros c2 Hc2.
      apply valid_deletes; [by apply Hval|done|].
      intros a Ha Ha2. apply (Hdisj _ Ha). apply elem_of_app. left.
      apply elem_of_bind_tree. eauto.
    + done.
    + rewrite Forall_forall in Hmal. apply Forall_forall. intros a Ha.
      apply malloced_deletes; [by apply Hmal|].
      intros Hin. apply (Hdisj _ Hin). apply elem_of_app. by left.
    + simpl in Hfuel. lia.
    + replace (length (done_ ++ [c])) with (S (length done_)) in *
        by (rewrite length_app; simpl; lia).
      subst st0. split; [done|]. exists st1. split.
      * by econstructor.
      * rewrite Hpost. f_equal. f_equal. lia.
Qed.

Lemma destroy_array_body_spec fuel fuel' cs rest arr st :
  Forall (λ t, ∀ st, owned (heap st) t →
     ffi_type_destroy fuel (root t) st = Done tt (destroy_post st t)) cs →
  owned_array (heap st) arr cs rest →
  length cs < fuel' →
  destroy_array_body (ffi_type_destroy fuel) fuel' arr st
  = Done tt (destroy_array_post st arr cs) ∧
  ∃ st1,
    destroy_each (ffi_type_destroy fuel) arr 0 (root <$> cs) st st1 ∧
    free arr (log (EvRead arr (length cs)) st1)
    = Done tt (destroy_array_post st arr cs).
Proof.
  intros Hrec (Hnull & Hnn & Harr & Hval & Hnd & Hmal) Hfuel.
  unfold destroy_array_body.
  apply Forall_app in Hmal as [Hmal Hmarr].
  destruct (destroy_loop_spec fuel cs [] rest arr st fuel')
    as (Hloop & st1 & Heach & Hpost); try done.
  simpl in Hloop, Heach, Hpost.
  assert (Hfree : free arr (destroy_loop_post st arr 0 cs)
                  = Done tt (destroy_array_post st arr cs)).
  { rewrite free_done; simpl.
    - unfold destroy_array_post, array_trace.
      rewrite deletes_app. simpl. by rewrite <- app_assoc.
    - done.
    - rewrite Forall_singleton in Hmarr. apply malloced_deletes; [done|].
      apply NoDup_app in Hnd as (_ & Hdisj & _).
      intros Hin. apply (Hdisj _ Hin). by apply list_elem_of_singleton. }
  split.
  - by erewrite bind_done by exact Hloop.
  - exists st1. split; [done|]. by rewrite <- Hpost.
Qed.

Lemma owned_children h p ty cs rest :
  owned h (Agg p ty cs rest) →
  owned_array h (elements ty) cs rest ∧ Forall (owned h) cs.
Proof.
  intros [(Hp & Hc & Hagg & Hes & Hnn & Harr & Hcs%valid_children) [Hnd Hmal]].
  simpl in Hnd, Hmal.
  assert (Hnd' : NoDup ((cs ≫= freed) ++ [elements ty])).
  { replace [elements ty; p] with ([elements ty] ++ [p]) in Hnd by done.
    rewrite app_assoc in Hnd. by apply NoDup_app in Hnd as (? & _ & _). }
  assert (Hmal' : Forall (malloced h) ((cs ≫= freed) ++ [elements ty])).
  { apply Forall_app in Hmal as [? Hm]. apply Forall_app. split; [done|].
    apply Forall_cons in Hm as [? _]. by apply Forall_singleton. }
  split; [done|].
  apply Forall_forall. intros c Hin. rewrite Forall_forall in Hcs.
  split; [by apply Hcs|].
  apply NoDup_app in Hnd' as (Hndc & _ & _).
  apply Forall_app in Hmal' as [Hmc _].
  split.
  - clear -Hndc Hin. induction cs as [|c' cs IH]; [by apply elem_of_nil in Hin|].
    rewrite bind_cons in Hndc. apply NoDup_app in Hndc as (? & _ & ?).
    apply elem_of_cons in Hin as [->|Hin]; auto.
  - rewrite Forall_forall in Hmc. apply Forall_forall. intros a Ha.
    apply Hmc. apply elem_of_bind_tree. eauto.
Qed.

(** ** What [ffi_type_destroy] does to an owned tree *)

(** With enough fuel, destroying an owned tree releases exactly the blocks
    it owns, in post-order, and produces exactly [destroy_trace]. *)
Lemma destroy_spec t : ∀ fuel st,
  fuel_of t ≤ fuel → owned (heap st) t →
  ffi_type_destroy fuel (root t) st = Done tt (destroy_post st t).
Proof.
  induction t as [p ty|p ty cs rest IH] using tree_ind';
    intros fuel st Hfuel Hown; (destruct fuel as [|fuel]; [simpl in Hfuel; lia|]).
  - destruct Hown as [(Hp & Hc & Hat) _]. simpl.
    rewrite is_null_false by done.
    erewrite bind_done by (by apply load_tag_done).
    rewrite Hat. unfold destroy_post. simpl.
    rewrite app_nil_r. by destruct st.
  - pose proof (owned_children _ _ _ _ _ Hown) as [Harr Hcs].
    destruct Hown as [(Hp & Hc & Hagg & Hes & Hnn & Hca & Hval) [Hnd Hmal]].
    simpl in Hfuel, Hnd, Hmal. simpl ffi_type_destroy. simpl root.
    rewrite is_null_false by done.
    erewrite bind_done by (by apply load_tag_done).
    rewrite Hagg.
    erewrite bind_done by (by apply load_elements_done).
    erewrite bind_done; last first.
    { apply (destroy_array_body_spec fuel fuel cs rest); [|done|lia].
      rewrite Forall_forall in IH. apply Forall_forall. intros c Hin st' Hown.
      apply IH; [done| |done]. pose proof (fuel_of_child _ _ Hin). lia. }
    replace [elements ty; p] with ([elements ty] ++ [p]) in Hnd, Hmal by done.
    rewrite app_assoc in Hnd, Hmal.
    apply NoDup_app in Hnd as (_ & Hdisj & _).
    apply Forall_app in Hmal as [_ Hmp]. rewrite Forall_singleton in Hmp.
    rewrite free_done; simpl.
    + unfold destroy_post, destroy_array_post. simpl.
      replace [elements ty; p] with ([elements ty] ++ [p]) by done.
      rewrite (app_assoc (cs ≫= freed)), (deletes_app _ [p]).
      simpl. by rewrite <- app_assoc.
    + done.
    + apply malloced_deletes; [done|].
      intros Hin. apply (Hdisj _ Hin). by apply list_elem_of_singleton.
Qed.

(** ** What [ffi_type_clone] builds *)

Lemma malloc_done c st :
  ∃ p, p = malloc_addr st ∧ p ≠ NULL ∧ heap st !! p = None ∧
    malloc c st
    = Done p (State (<[p := Block true c]> (heap st)) (trace st ++ [EvMalloc p])).
Proof using malloc_is_sound malloc_is_total.
  exists (malloc_addr st). pose proof (malloc_is_total st) as Hp.
  split; [done|]. split; [done|]. split; [by apply malloc_is_sound|].
  unfold malloc. by rewrite is_null_false.
Qed.

Lemma store_slot_done st p m slots i v :
  heap st !! p = Some (Block m (CArray slots)) → i < length slots →
  store_slot p i v st
  = Done tt (set_heap <[p := Block m (CArray (<[i := Some v]> slots))]> st).
Proof.
  intros Hp Hi. unfold store_slot. rewrite Hp.
  by rewrite bool_decide_true.
Qed.

Lemma store_elements_done st p m t v :
  heap st !! p = Some (Block m (CType (Some t))) →
  store_elements p v st
  = Done tt (set_heap
      <[p := Block m (CType (Some (Build_ffi_type (size t) (alignment t) (type t) v)))]> st).
Proof. intros Hp. unfold store_elements. by rewrite Hp. Qed.

Lemma memcpy_type_done st dst src m v t :
  heap st !! dst = Some (Block m (CType v)) →
  content_at (heap st) src = Some (CType (Some t)) →
  memcpy_type dst src st
  = Done tt (set_heap <[dst := Block m (CType (Some t))]> st).
Proof.
  intros Hd [m' Hs]%content_at_Some. unfold memcpy_type. by rewrite Hd, Hs.
Qed.

Lemma size_loop_spec todo : ∀ done_ rest types st fuel sz,
  content_at (heap st) types = Some (CArray (slots_of (done_ ++ todo) rest)) →
  Forall (λ c, c ≠ NULL) todo →
  length todo < fuel →
  size_loop fuel types (length done_) sz st
  = Done (sz + length todo)
      (State (heap st)
             (trace st ++ (EvRead types <$> seq (length done_) (S (length todo))))).
Proof.
  induction todo as [|c todo IH]; intros done_ rest types st fuel sz Harr Hnn Hfuel;
    (destruct fuel as [|fuel]; [lia|]); simpl size_loop.
  - rewrite app_nil_r in Harr.
    erewrite bind_done
      by (eapply load_slot_done; [done|apply slots_of_lookup_sentinel]).
    change (is_null NULL) with true. simpl. by rewrite Nat.add_0_r.
  - apply Forall_cons in Hnn as [Hcn Hnn].
    erewrite bind_done; last first.
    { eapply load_slot_done; [done|]. apply slots_of_lookup_entry.
      by rewrite lookup_app_r, Nat.sub_diag. }
    rewrite is_null_false by done.
    replace (S (length done_)) with (length (done_ ++ [c])) at 1
      by (rewrite length_app; simpl; lia).
    rewrite (IH (done_ ++ [c]) rest); [|by rewrite <- app_assoc|done|simpl in Hfuel; lia].
    simpl. rewrite <- app_assoc. simpl.
    replace (length (done_ ++ [c])) with (S (length done_))
      by (rewrite length_app; simpl; lia).
    do 2 f_equal. lia.
Qed.

Lemma extends_by_live h h' F a :
  extends_by h h' F → is_Some (h !! a) → h' !! a = h !! a.
Proof.
  intros [Hfresh Hframe] [b Hb]. apply Hframe. intros Hin.
  pose proof (Hfresh _ Hin) as Hn. congruence.
Qed.

Lemma fill_slot (ps : list ptr) n v :
  <[length ps := Some v]> ((Some <$> ps) ++ replicate (S n) None)
  = (Some <$> (ps ++ [v])) ++ replicate n None.
Proof.
  rewrite fmap_app, <- app_assoc. simpl.
  rewrite <- (length_fmap Some ps) at 1.
  rewrite <- (Nat.add_0_r (length (Some <$> ps))), insert_app_r. done.
Qed.

Lemma valid_root h t : valid h t → root t ≠ NULL.
Proof. destruct t; simpl; by intros [? _]. Qed.

Lemma clone_loop_spec fuel todo : ∀ dps dps' rest types copy st,
  1 ≤ fuel →
  Forall (clone_ok fuel) todo →
  content_at (heap st) types
    = Some (CArray (slots_of (dps ++ (root <$> todo)) rest)) →
  length dps = length dps' →
  heap st !! copy
    = Some (Block true (CArray ((Some <$> dps') ++ replicate (S (length todo)) None))) →
  copy ≠ types →
  Forall (λ c, copy ∉ addrs c) todo →
  Forall (valid (heap st)) todo →
  ∃ todo' st',
    clone_loop (ffi_type_clone fuel) (S (length todo)) types copy (length dps) st
      = Done tt st' ∧
    Forall2 clone_rel todo todo' ∧
    heap st' !! copy
      = Some (Block true (CArray (slots_of (dps' ++ (root <$> todo')) []))) ∧
    Forall (valid (heap st')) todo' ∧
    NoDup (todo' ≫= freed) ∧
    Forall (malloced (heap st')) (todo' ≫= freed) ∧
    (∀ a, a ∈ todo' ≫= freed → heap st !! a = None) ∧
    (∀ a, a ∉ todo' ≫= freed → a ≠ copy → heap st' !! a = heap st !! a) ∧
    clone_each (ffi_type_clone fuel) types copy (length dps)
      ((root <$> todo) ++ [NULL]) ((root <$> todo') ++ [NULL]) st st'.
Proof using malloc_is_sound malloc_is_total.
  induction todo as [|c todo IH];
    intros dps dps' rest types copy st Hfuel Hrec Harr Hlen Hcopy Hne Hnin Hval.
  - simpl in Harr. rewrite app_nil_r in Harr. simpl clone_loop.
    erewrite bind_done
      by (eapply load_slot_done; [done|apply slots_of_lookup_sentinel]).
    destruct fuel as [|fuel]; [lia|].
    erewrite bind_done by reflexivity.
    erewrite bind_done; last first.
    { eapply store_slot_done; [exact Hcopy|].
      rewrite length_app, length_fmap. simpl. lia. }
    exists [], (set_heap
      <[copy := Block true (CArray (<[length dps := Some NULL]>
         ((Some <$> dps') ++ replicate 1 None)))]> (log (EvRead types (length dps)) st)).
    split; [done|]. split; [constructor|]. split.
    { cbn [heap set_heap log]. rewrite lookup_insert_eq, Hlen, fill_slot.
      unfold slots_of. simpl. by rewrite !app_nil_r, fmap_app. }
    split; [constructor|]. split; [constructor|]. split; [constructor|].
    split; [by intros a ?%elem_of_nil|]. split.
    { intros a _ Ha. simpl. by rewrite lookup_insert_ne. }
    simpl. econstructor; [reflexivity| |constructor].
    eapply store_slot_done; [exact Hcopy|].
    rewrite length_app, length_fmap. simpl. lia.
  - apply Forall_cons in Hrec as [Hc Hrec].
    apply Forall_cons in Hnin as [Hninc Hnin].
    apply Forall_cons in Hval as [Hvc Hval].
    simpl in Harr. simpl clone_loop.
    erewrite bind_done; last first.
    { eapply load_slot_done; [done|]. apply slots_of_lookup_entry.
      by rewrite lookup_app_r, Nat.sub_diag. }
    destruct (Hc (log (EvRead types (length dps)) st) Hvc)
      as (c' & st2 & Hrun & Hrel & (Hvc' & Hndc' & Hmalc') & Hext).
    simpl in Hext.
    erewrite bind_done by exact Hrun.
    assert (Hcopy2 : heap st2 !! copy = heap st !! copy)
      by (eapply extends_by_live; [done|by eexists]).
    assert (Hstore : store_slot copy (length dps) (root c') st2
      = Done tt (set_heap <[copy := Block true (CArray
          ((Some <$> dps' ++ [root c']) ++ replicate (S (length todo)) None))]> st2)).
    { rewrite <- fill_slot, <- Hlen.
      eapply store_slot_done; [by rewrite Hcopy2|].
      rewrite length_app, length_fmap, length_replicate. lia. }
    erewrite bind_done by exact Hstore.
    set (st3 := set_heap _ st2) in *.
    assert (Hst3 : ∀ a, a ≠ copy → heap st3 !! a = heap st2 !! a)
      by (intros a Ha; simpl; by rewrite lookup_insert_ne).
    assert (Hst3c : heap st3 !! copy
        = Some (Block true (CArray ((Some <$> dps' ++ [root c'])
                                    ++ replicate (S (length todo)) None))))
      by (simpl; by rewrite lookup_insert_eq).
    replace (S (length dps)) with (length (dps ++ [root c])) in *
      by (rewrite length_app; simpl; lia).
    destruct (IH (dps ++ [root c]) (dps' ++ [root c']) rest types copy st3)
      as (todo' & st' & Hrun' & Hrel' & Hcopy' & Hval' & Hnd' & Hmal' & Hfresh'
          & Hframe' & Heach').
    { done. }
    { done. }
    { rewrite <- app_assoc. simpl. unfold content_at.
      rewrite Hst3 by done.
      apply content_at_Some in Harr as [m Harr].
      erewrite extends_by_live; [|done|by eexists]. by rewrite Harr. }
    { rewrite !length_app. simpl. lia. }
    { done. }
    { done. }
    { done. }
    { rewrite Forall_forall in Hval, Hnin. apply Forall_forall. intros c2 Hc2.
      eapply valid_agree; [|by apply Hval].
      intros a Ha. rewrite Hst3 by (intros ->; by apply (Hnin c2)).
      eapply extends_by_live; [exact Hext|].
      apply (valid_addrs_live _ c2); [by apply Hval|done]. }
    assert (Hkeep : ∀ a, a ∈ addrs c' →
      (a ∉ todo' ≫= freed) ∧ heap st' !! a = heap st2 !! a).
    { intros a Ha.
      assert (a ≠ copy) as Hac.
      { intros ->. destruct (valid_addrs_kind _ _ _ Hvc' Ha) as [Hf|(ty & Hty & _)].
        - destruct Hext as [Hfr _]. rewrite (Hfr _ Hf) in Hcopy. done.
        - unfold content_at in Hty. rewrite Hcopy2, Hcopy in Hty. done. }
      assert (a ∉ todo' ≫= freed) as Hat.
      { intros Hin. destruct (valid_addrs_live _ _ _ Hvc' Ha) as [b Hb].
        rewrite <- Hst3, (Hfresh' _ Hin) in Hb; done. }
      split; [done|]. rewrite Hframe' by done. by apply Hst3. }
    exists (c' :: todo'), st'.
    split; [by rewrite <- Hrun'|]. split; [by constructor|]. split.
    { rewrite Hcopy'. by rewrite <- app_assoc. }
    split.
    { constructor; [|done]. eapply valid_agree; [|exact Hvc'].
      intros a Ha. by apply Hkeep. }
    rewrite bind_cons. split.
    { apply NoDup_app. split; [done|]. split; [|done].
      intros a Ha. apply Hkeep. by apply freed_addrs. }
    split.
    { apply Forall_app. split; [|done].
      rewrite Forall_forall in Hmalc'. apply Forall_forall. intros a Ha.
      unfold malloced. destruct (Hkeep a (freed_addrs _ _ Ha)) as [_ ->].
      by apply Hmalc'. }
    destruct Hext as [Hfr Hfm]. split.
    { intros a [Ha|Ha]%elem_of_app; [by apply Hfr|].
      pose proof (Hfresh' _ Ha) as Hn.
      assert (a ≠ copy) as Hac by (intros ->; rewrite Hst3c in Hn; done).
      rewrite Hst3 in Hn by done.
      destruct (decide (a ∈ freed c')) as [Hin|Hnin']; [by apply Hfr|].
      by rewrite <- Hfm. }
    split.
    { intros a [Ha1 Ha2]%not_elem_of_app Hac.
      rewrite Hframe', Hst3 by done. by apply Hfm. }
    rewrite !fmap_cons. simpl. econstructor; [exact Hrun|exact Hstore|].
    replace (length (dps ++ [root c])) with (S (length dps)) in Heach'
      by (rewrite length_app; simpl; lia).
    done.
Qed.

Lemma clone_array_body_spec fuel fuel' cs rest types st :
  1 ≤ fuel →
  Forall (clone_ok fuel) cs →
  content_at (heap st) types = Some (CArray (slots_of (root <$> cs) rest)) →
  Forall (λ c, c ≠ NULL) (root <$> cs) →
  Forall (valid (heap st)) cs →
  length cs < fuel' →
  ∃ copy cs' st',
    clone_array_body (ffi_type_clone fuel) fuel' types st = Done copy st' ∧
    Forall2 clone_rel cs cs' ∧
    owned_array (heap st') copy cs' [] ∧
    extends_by (heap st) (heap st') ((cs' ≫= freed) ++ [copy]) ∧
    let sta := State (heap st)
                     (trace st ++ (EvRead types <$> seq 0 (S (length cs)))) in
    let stb := State (<[copy := Block true (CArray (replicate (S (length cs)) None))]>
                        (heap st))
                     (trace sta ++ [EvMalloc copy]) in
    copy = malloc_addr sta ∧
    clone_each (ffi_type_clone fuel) types copy 0
      ((root <$> cs) ++ [NULL]) ((root <$> cs') ++ [NULL]) stb st'.
Proof using malloc_is_sound malloc_is_total.
  intros Hfuel Hrec Harr Hnn Hval Hlen. unfold clone_array_body.
  pose proof (size_loop_spec (root <$> cs) [] rest types st fuel' 1) as Hsize.
  simpl in Hsize. rewrite length_fmap in Hsize.
  erewrite bind_done by (by apply Hsize).
  set (sta := State (heap st) _).
  destruct (malloc_done (CArray (replicate (S (length cs)) None)) sta)
    as (copy & Hceq & Hcn & Hcf & Hmalloc).
  erewrite bind_done by exact Hmalloc.
  rewrite is_null_false by done. simpl negb.
  erewrite bind_done by reflexivity.
  simpl in Hcf.
  set (stb := State _ _).
  assert (Hstb : ∀ a, a ≠ copy → heap stb !! a = heap st !! a)
    by (intros a Ha; simpl; by rewrite lookup_insert_ne).
  assert (Hlive : ∀ a, is_Some (heap st !! a) → a ≠ copy).
  { intros a [b Hb] ->. congruence. }
  destruct (clone_loop_spec fuel cs [] [] rest types copy stb)
    as (cs' & st' & Hrun & Hrel & Hcopy & Hval' & Hnd & Hmal & Hfresh & Hframe
        & Heach).
  { done. }
  { done. }
  { simpl. unfold content_at. rewrite Hstb; [done|].
    apply Hlive. apply content_at_Some in Harr as [m ->]. by eexists. }
  { done. }
  { simpl. by rewrite lookup_insert_eq. }
  { intros ->. apply content_at_Some in Harr as [m Harr]. congruence. }
  { rewrite Forall_forall in Hval. apply Forall_forall. intros c Hc Hin.
    by apply (Hlive copy (valid_addrs_live _ _ _ (Hval c Hc) Hin)). }
  { rewrite Forall_forall in Hval. apply Forall_forall. intros c Hc.
    eapply valid_agree; [|by apply Hval].
    intros a Ha. apply Hstb, Hlive. eapply valid_addrs_live; [by apply Hval|done]. }
  simpl length in Hrun. erewrite bind_done by exact Hrun.
  exists copy, cs', st'. split; [done|]. split; [done|].
  assert (Hcnin : copy ∉ cs' ≫= freed).
  { intros Hin. specialize (Hfresh _ Hin). simpl in Hfresh.
    by rewrite lookup_insert_eq in Hfresh. }
  split.
  - split; [done|]. split.
    { rewrite Forall_forall in Hval'. apply Forall_forall.
      intros p (c & -> & Hc)%list_elem_of_fmap. eapply valid_root. by apply Hval'. }
    split; [by (unfold content_at; rewrite Hcopy)|]. split; [done|]. split.
    + apply NoDup_app. split; [done|]. split; [|apply NoDup_singleton].
      intros a Ha ->%list_elem_of_singleton. done.
    + apply Forall_app. split; [done|]. apply Forall_singleton.
      unfold malloced. by rewrite Hcopy.
  - split; [split|].
    + intros a [Ha| ->%list_elem_of_singleton]%elem_of_app; [|done].
      rewrite <- Hstb; [by apply Hfresh|]. by intros ->.
    + intros a [Ha1 Ha2]%not_elem_of_app.
      assert (a ≠ copy) by (by intros ->; apply Ha2, list_elem_of_singleton).
      rewrite Hframe by done. by apply Hstb.
    + done.
Qed.

(** Cloning an aggregate whose children can be cloned: the copy is the
    block that [malloc] returns, it receives the source by [memcpy], and its
    [elements] field what [ffi_type_clone_array] returns next. *)
Lemma clone_agg_spec fuel p ty cs rest st :
  Forall (clone_ok fuel) cs → length cs < fuel →
  valid (heap st) (Agg p ty cs rest) →
  ∃ copy arr' cs' st3,
    copy = malloc_addr st ∧ copy ≠ NULL ∧ heap st !! copy = None ∧
    ffi_type_clone_array fuel (elements ty)
      (State (<[copy := Block true (CType (Some ty))]> (heap st))
             (trace st ++ [EvMalloc copy])) = Done arr' st3 ∧
    let ty' := Build_ffi_type (size ty) (alignment ty) (type ty) arr' in
    let st' := set_heap <[copy := Block true (CType (Some ty'))]> st3 in
    ffi_type_clone (S fuel) p st = Done copy st' ∧
    clone_post (heap st) (heap st') (Agg p ty cs rest) (Agg copy ty' cs' []).
Proof using malloc_is_sound malloc_is_total.
  intros IH Hfuel Hv.
  pose proof Hv as (Hp & Hc & Hagg & Hes & Hnn & Hca & Hval%valid_children).
  destruct (malloc_done (CType None) st) as (copy & Hceq & Hcn & Hcf & Hmalloc).
  assert (Hlive : ∀ a, is_Some (heap st !! a) → a ≠ copy).
  { intros a [b Hb] ->. congruence. }
  assert (Hpc : p ≠ copy).
  { apply Hlive. apply content_at_Some in Hc as [m ->]. by eexists. }
  set (st2 := State (<[copy := Block true (CType (Some ty))]> (heap st))
                    (trace st ++ [EvMalloc copy])).
  assert (Hst2 : ∀ a, a ≠ copy → heap st2 !! a = heap st !! a)
    by (intros a Ha; simpl; by rewrite lookup_insert_ne).
  assert (Hst2c : heap st2 !! copy = Some (Block true (CType (Some ty))))
    by (simpl; by rewrite lookup_insert_eq).
  assert (Hunfold : ffi_type_clone (S fuel) p st
    = (arr ← ffi_type_clone_array fuel (elements ty);
       store_elements copy arr;; ret copy) st2).
  { simpl ffi_type_clone.
    rewrite is_null_false by done.
    erewrite bind_done by (by apply load_tag_done).
    rewrite Hagg.
    erewrite bind_done by exact Hmalloc.
    rewrite is_null_false by done. simpl negb.
    erewrite bind_done by reflexivity.
    erewrite bind_done; last first.
    { eapply memcpy_type_done; simpl.
      - by rewrite lookup_insert_eq.
      - unfold content_at. rewrite lookup_insert_ne by done. exact Hc. }
    unfold set_heap at 1. cbn [heap trace]. rewrite insert_insert_eq.
    erewrite bind_done; last first.
    { apply load_elements_done. unfold content_at. simpl.
      rewrite lookup_insert_ne by done. exact Hc. }
    done. }
  destruct (clone_array_body_spec fuel fuel cs rest (elements ty) st2)
    as (arr' & cs' & st3 & Hrun & Hrel & Harr' & Hext & _).
  { lia. }
  { done. }
  { unfold content_at. rewrite Hst2; [done|].
    apply Hlive. apply content_at_Some in Hca as [m ->]. by eexists. }
  { done. }
  { rewrite Forall_forall in Hval. apply Forall_forall. intros c Hin.
    eapply valid_agree; [|by apply Hval].
    intros a Ha. apply Hst2, Hlive.
    eapply valid_addrs_live; [by apply Hval|done]. }
  { lia. }
  assert (Hst3c : heap st3 !! copy = Some (Block true (CType (Some ty)))).
  { rewrite <- Hst2c. eapply extends_by_live; [done|]. by rewrite Hst2c. }
  exists copy, arr', cs', st3.
  split; [done|]. split; [done|]. split; [done|]. split; [exact Hrun|].
  intros ty' st4.
  split.
  { rewrite Hunfold. erewrite bind_done by exact Hrun.
    erewrite bind_done by (by eapply store_elements_done). done. }
  assert (Hst4 : ∀ a, a ≠ copy → heap st4 !! a = heap st3 !! a)
    by (intros a Ha; simpl; by rewrite lookup_insert_ne).
  destruct Harr' as (Han & Hnn' & Hca' & Hval' & Hnd' & Hmal').
  destruct Hext as [Hfr Hfm].
  assert (Hcnew : copy ∉ (cs' ≫= freed) ++ [arr']).
  { intros Hin. specialize (Hfr _ Hin). congruence. }
  assert (Hkeep : ∀ c a, c ∈ cs' → a ∈ addrs c → a ≠ copy).
  { intros c a Hin Ha ->. rewrite Forall_forall in Hval'.
    destruct (valid_addrs_kind _ _ _ (Hval' c Hin) Ha) as [Hf|(ty0 & Hty & Hat)].
    - apply Hcnew. apply elem_of_app. left. apply elem_of_bind_tree. eauto.
    - unfold content_at in Hty. rewrite Hst3c in Hty. simpl in Hty.
      congruence. }
  split; [by constructor|].
  apply not_elem_of_app in Hcnew as [Hcn1 Hcn2].
  assert (arr' ≠ copy) as Hac
    by (intros ->; by apply Hcn2, list_elem_of_singleton).
  split; [split; [|split]|split].
  + simpl. split; [done|]. unfold content_at.
    rewrite lookup_insert_eq. split; [done|]. split; [done|].
    split; [done|]. split; [done|]. rewrite lookup_insert_ne by done.
    split; [exact Hca'|]. apply valid_children.
    rewrite Forall_forall in Hval'. apply Forall_forall. intros c Hin.
    eapply valid_agree; [|by apply Hval'].
    intros a Ha. apply Hst4. by apply (Hkeep c).
  + simpl. replace [arr'; copy] with ([arr'] ++ [copy]) by done.
    rewrite app_assoc. apply NoDup_app. split; [done|].
    split; [|apply NoDup_singleton].
    intros a Ha ->%list_elem_of_singleton.
    apply elem_of_app in Ha as [Ha|Ha]; done.
  + simpl. replace [arr'; copy] with ([arr'] ++ [copy]) by done.
    rewrite app_assoc. apply Forall_app. split.
    * rewrite Forall_forall in Hmal'. apply Forall_forall. intros a Ha.
      unfold malloced. rewrite Hst4; [by apply Hmal'|].
      intros ->. apply elem_of_app in Ha as [Ha|Ha]; done.
    * apply Forall_singleton. unfold malloced. simpl.
      by rewrite lookup_insert_eq.
  + intros a Ha. simpl in Ha.
    replace [arr'; copy] with ([arr'] ++ [copy]) in Ha by done.
    rewrite app_assoc in Ha.
    apply elem_of_app in Ha as [Ha| ->%list_elem_of_singleton]; [|done].
    rewrite <- Hst2; [by apply Hfr|].
    intros ->. apply elem_of_app in Ha as [Ha|Ha]; done.
  + intros a Ha. simpl in Ha.
    replace [arr'; copy] with ([arr'] ++ [copy]) in Ha by done.
    rewrite app_assoc in Ha.
    apply not_elem_of_app in Ha as [Ha1 Ha2].
    assert (a ≠ copy) by (by intros ->; apply Ha2, list_elem_of_singleton).
    rewrite Hst4, Hfm by done. by apply Hst2.
Qed.

(** With enough fuel and a working allocator, cloning a valid tree builds an
    owned tree of the same shape out of fresh blocks only. *)
Lemma clone_spec t : ∀ fuel, fuel_of t ≤ fuel → clone_ok fuel t.
Proof using malloc_is_sound malloc_is_total.
  induction t as [p ty|p ty cs rest IH] using tree_ind';
    intros fuel Hfuel st Hv; (destruct fuel as [|fuel]; [simpl in Hfuel; lia|]).
  - destruct Hv as (Hp & Hc & Hat). exists (Atom p ty), st. simpl.
    rewrite is_null_false by done.
    erewrite bind_done by (by apply load_tag_done).
    rewrite Hat. split; [done|]. split; [constructor|]. split.
    + split; [done|]. split; constructor.
    + split; [by intros a ?%elem_of_nil|done].
  - simpl in Hfuel.
    destruct (clone_agg_spec fuel p ty cs rest st)
      as (copy & arr' & cs' & st3 & _ & _ & _ & _ & Hrun & Hpost).
    + rewrite Forall_forall in IH. apply Forall_forall. intros c Hin.
      apply IH; [done|]. pose proof (fuel_of_child _ _ Hin). lia.
    + lia.
    + done.
    + simpl in Hrun, Hpost. eexists (Agg copy _ cs' []), _. split; [exact Hrun|done].
Qed.

(** ** Shape and traces *)

Lemma clone_rel_fuel t : ∀ t', clone_rel t t' → fuel_of t' = fuel_of t.
Proof.
  induction t as [p ty|p ty cs rest IH] using tree_ind';
    intros t' Hrel; inversion Hrel as [|? ? ? ? ? ? cs' HF]; subst; simpl; [done|].
  rewrite (Forall2_length _ _ _ HF).
  assert (fuel_of <$> cs' = fuel_of <$> cs) as ->; [|done].
  clear Hrel. induction HF as [|c c' cs cs' Hc HF IHF]; [done|].
  apply Forall_cons in IH as [IHc IH]. rewrite !fmap_cons.
  f_equal; [by apply IHc|by apply IHF].
Qed.

Lemma clone_rel_atoms t : ∀ t', clone_rel t t' → atoms t' = atoms t.
Proof.
  induction t as [p ty|p ty cs rest IH] using tree_ind';
    intros t' Hrel; inversion Hrel as [|? ? ? ? ? ? cs' HF]; subst; simpl; [done|].
  clear Hrel. induction HF as [|c c' cs cs' Hc HF IHF]; [done|].
  apply Forall_cons in IH as [IHc IH]. rewrite !bind_cons.
  f_equal; [by apply IHc|by apply IHF].
Qed.

Lemma frees_of_loop_trace arr trs : ∀ i,
  frees_of (loop_trace arr i trs) = trs ≫= frees_of.
Proof.
  induction trs as [|tr trs IH]; intros i; simpl; [done|].
  unfold frees_of in *. rewrite omap_app. by rewrite IH.
Qed.

Lemma frees_of_destroy_trace t : frees_of (destroy_trace t) = freed t.
Proof.
  induction t as [p ty|p ty cs rest IH] using tree_ind'; simpl; [done|].
  unfold array_trace, frees_of. rewrite !omap_app. simpl.
  fold (frees_of (loop_trace (elements ty) 0 (destroy_trace <$> cs))).
  rewrite frees_of_loop_trace, list_fmap_bind, <- app_assoc. simpl.
  f_equal. by apply Forall_bind_ext.
Qed.

Lemma loop_reads_S i n : loop_reads i (S n) = i :: i :: loop_reads (S i) n.
Proof.
  unfold loop_reads. simpl. by rewrite Nat.add_succ_r.
Qed.

Lemma reads_of_loop_trace arr arr' trs : ∀ i,
  Forall (λ tr, reads_of arr tr = []) trs →
  reads_of arr (loop_trace arr' i trs)
  = if bool_decide (arr' = arr) then loop_reads i (length trs) else [].
Proof.
  induction trs as [|tr trs IH]; intros i Hnone; simpl length.
  - unfold reads_of, loop_reads. simpl. rewrite Nat.add_0_r.
    by destruct (bool_decide (arr' = arr)).
  - apply Forall_cons in Hnone as [Htr Hnone]. rewrite loop_reads_S. simpl.
    change (EvRead arr' i :: EvRead arr' i :: tr ++ loop_trace arr' (S i) trs)
      with ([EvRead arr' i; EvRead arr' i] ++ tr ++ loop_trace arr' (S i) trs).
    unfold reads_of in *. rewrite !omap_app, Htr, IH by done. simpl.
    by destruct (bool_decide (arr' = arr)).
Qed.

Lemma reads_of_destroy_trace arr t :
  arr ∉ freed t → reads_of arr (destroy_trace t) = [].
Proof.
  induction t as [p ty|p ty cs rest IH] using tree_ind'; simpl; [done|].
  intros [Hcs Hnode]%not_elem_of_app.
  apply not_elem_of_cons in Hnode as [Harr _].
  unfold array_trace, reads_of. rewrite !omap_app. simpl.
  fold (reads_of arr (loop_trace (elements ty) 0 (destroy_trace <$> cs))).
  rewrite reads_of_loop_trace.
  { by rewrite bool_decide_false by congruence. }
  apply Forall_fmap. rewrite Forall_forall in IH. apply Forall_forall.
  intros c Hc. apply IH; [done|]. intros Hin. apply Hcs.
  apply elem_of_bind_tree. eauto.
Qed.

(** ** The properties of the specification *)

Lemma is_aggregate_false tag :
  tag ≠ FFI_TYPE_STRUCT → tag ≠ FFI_TYPE_COMPLEX → is_aggregate tag = false.
Proof. intros. unfold is_aggregate. by rewrite !bool_decide_false. Qed.

Lemma destroy_children_ok fuel cs :
  max_list (fuel_of <$> cs) ≤ fuel →
  Forall (λ t, ∀ st, owned (heap st) t →
     ffi_type_destroy fuel (root t) st = Done tt (destroy_post st t)) cs.
Proof.
  intros Hfuel. apply Forall_forall. intros c Hin st Hown.
  apply destroy_spec; [|done]. pose proof (fuel_of_child _ _ Hin). lia.
Qed.

(** When [malloc] fails, the [assert] after it stops the program. *)
Lemma clone_aborts_without_memory fuel p ty st :
  p ≠ NULL → content_at (heap st) p = Some (CType (Some ty)) →
  is_aggregate (type ty) = true → malloc_addr st = NULL →
  ffi_type_clone (S fuel) p st = Aborted.
Proof.
  intros Hp Hc Hagg Hfail. simpl.
  rewrite is_null_false by done.
  erewrite bind_done by (by apply load_tag_done).
  rewrite Hagg.
  erewrite bind_done by (unfold malloc; by rewrite Hfail).
  done.
Qed.

(** C7. [ffi_type_destroy] applied to the null pointer returns without
    touching the state, and [ffi_type_clone] applied to the null pointer
    returns the null pointer, also without touching the state. *)
Theorem null_is_ignored fuel st :
  ffi_type_destroy (S fuel) NULL st = Done tt st ∧
  ffi_type_clone (S fuel) NULL st = Done NULL st.
Proof. split; reflexivity. Qed.

(** C3. For a descriptor whose tag is neither [FFI_TYPE_STRUCT] nor
    [FFI_TYPE_COMPLEX], [ffi_type_clone] returns the very same pointer and
    [ffi_type_destroy] returns; both leave the heap and the trace as they
    were: nothing is copied, released or written. *)
Theorem atomic_is_shared fuel st a ty :
  content_at (heap st) a = Some (CType (Some ty)) →
  type ty ≠ FFI_TYPE_STRUCT → type ty ≠ FFI_TYPE_COMPLEX →
  ffi_type_clone (S fuel) a st = Done a st ∧
  ffi_type_destroy (S fuel) a st = Done tt st.
Proof.
  intros Hc Hs Hx. pose proof (is_aggregate_false _ Hs Hx) as Hat.
  simpl. destruct (is_null a) eqn:Hnull.
  - apply bool_decide_eq_true in Hnull as ->. done.
  - erewrite !bind_done by (by apply load_tag_done). by rewrite Hat.
Qed.

(** [freed] lists the blocks that the nodes of the tree own. *)
Lemma elem_of_freed t a : a ∈ freed t ↔ ∃ s, s ∈ subtrees t ∧ owns s a.
Proof.
  induction t as [p ty|p ty cs rest IH] using tree_ind'.
  - simpl. split; [by intros ?%elem_of_nil|].
    intros (s & ->%list_elem_of_singleton & []).
  - rewrite Forall_forall in IH. simpl freed. simpl subtrees. split.
    + intros [Hin|Hin]%elem_of_app.
      * apply elem_of_bind_tree in Hin as (c & Hc & Hin).
        apply (IH c Hc) in Hin as (s & Hs & Hown).
        exists s. split; [|done]. right. apply elem_of_bind_tree. eauto.
      * exists (Agg p ty cs rest). split; [left|]. simpl.
        apply elem_of_cons in Hin as [->|Hin]; [by right|].
        apply list_elem_of_singleton in Hin as ->. by left.
    + intros (s & [->|Hs]%elem_of_cons & Hown).
      * apply elem_of_app. right. simpl in Hown.
        destruct Hown as [->| ->]; [right|]; by left.
      * apply elem_of_bind_tree in Hs as (c & Hc & Hs).
        apply elem_of_app. left. apply elem_of_bind_tree.
        exists c. split; [done|]. apply (IH c Hc). eauto.
Qed.

(** C5. [ffi_type_destroy] on an aggregate whose subtree is exclusively
    owned returns, and the blocks it releases are, in this order, those of
    the children's subtrees in index order, the child array and the
    descriptor itself. They are the descriptors and the child arrays of the
    aggregates of the tree, and they are pairwise distinct: every owned block
    is released exactly once, was live before and is gone afterwards, and no
    other block is touched. *)
Theorem destroy_releases_once p ty cs rest st fuel :
  owned (heap st) (Agg p ty cs rest) → fuel_of (Agg p ty cs rest) ≤ fuel →
  ∃ st' tr,
    ffi_type_destroy fuel p st = Done tt st' ∧
    trace st' = trace st ++ tr ∧
    frees_of tr = (cs ≫= freed) ++ [elements ty; p] ∧
    (∀ a, a ∈ frees_of tr ↔ ∃ s, s ∈ subtrees (Agg p ty cs rest) ∧ owns s a) ∧
    NoDup (frees_of tr) ∧
    (∀ a, a ∈ frees_of tr → is_Some (heap st !! a) ∧ heap st' !! a = None) ∧
    (∀ a, a ∉ frees_of tr → heap st' !! a = heap st !! a).
Proof.
  intros Hown Hfuel. set (t := Agg p ty cs rest) in *.
  exists (destroy_post st t), (destroy_trace t).
  split; [by apply (destroy_spec t)|]. split; [done|].
  rewrite frees_of_destroy_trace. split; [done|].
  split; [intros a; apply elem_of_freed|].
  destruct Hown as (Hv & Hnd & Hmal). split; [done|]. split.
  - intros a Ha. split.
    + rewrite Forall_forall in Hmal. specialize (Hmal a Ha).
      unfold malloced in Hmal. by destruct (heap st !! a).
    + simpl. rewrite lookup_deletes. by rewrite decide_True.
  - intros a Ha. simpl. rewrite lookup_deletes. by rewrite decide_False.
Qed.

Lemma loop_reads_bound i n : Forall (λ j, j ≤ i + n) (loop_reads i n).
Proof.
  revert i. induction n as [|n IH]; intros i.
  - unfold loop_reads. simpl. by apply Forall_singleton.
  - rewrite loop_reads_S. repeat (apply Forall_cons; split; [lia|]).
    eapply Forall_impl; [apply IH|]. simpl. intros; lia.
Qed.

(** C6. [ffi_type_destroy_array] on a sentinel-terminated array with owned
    entries runs [ffi_type_destroy] on the entries before the first sentinel,
    one after the other in index order, each right after the reads of its
    slot, then reads the sentinel and releases the array. The slots it reads
    are 0, ..., n in this order, each entry for the test and for the call:
    none after the sentinel, whatever is stored there. On an array that
    starts with the sentinel it reads slot 0 and releases the array, and does
    nothing else. *)
Theorem destroy_array_in_order types cs rest st fuel :
  owned_array (heap st) types cs rest → fuel_of_array cs ≤ fuel →
  ∃ st1 st' tr,
    ffi_type_destroy_array fuel types st = Done tt st' ∧
    destroy_each (ffi_type_destroy fuel) types 0 (root <$> cs) st st1 ∧
    free types (log (EvRead types (length cs)) st1) = Done tt st' ∧
    trace st' = trace st ++ tr ∧
    reads_of types tr = loop_reads 0 (length cs) ∧
    Forall (λ i, i ≤ length cs) (reads_of types tr) ∧
    last tr = Some (EvFree types) ∧
    heap st' = deletes ((cs ≫= freed) ++ [types]) (heap st) ∧
    (cs = [] →
     st' = State (delete types (heap st))
                 (trace st ++ [EvRead types 0; EvFree types])).
Proof.
  intros Harr Hfuel. unfold fuel_of_array in Hfuel.
  destruct (destroy_array_body_spec fuel fuel cs rest types st)
    as (Hrun & st1 & Heach & Hfree); [apply destroy_children_ok; lia|done|lia|].
  exists st1, (destroy_array_post st types cs),
    (array_trace types (destroy_trace <$> cs)).
  split; [done|]. split; [done|]. split; [done|]. split; [done|].
  destruct Harr as (_ & _ & _ & _ & Hnd & _).
  apply NoDup_app in Hnd as (_ & Hdisj & _).
  assert (Hreads : reads_of types (array_trace types (destroy_trace <$> cs))
                   = loop_reads 0 (length cs)).
  { unfold array_trace, reads_of. rewrite omap_app. simpl.
    fold (reads_of types (loop_trace types 0 (destroy_trace <$> cs))).
    rewrite reads_of_loop_trace.
    + by rewrite bool_decide_true, app_nil_r, length_fmap.
    + apply Forall_fmap, Forall_forall. intros c Hc.
      apply reads_of_destroy_trace. intros Hin.
      apply (Hdisj types); [|by apply list_elem_of_singleton].
      apply elem_of_bind_tree. eauto. }
  split; [done|]. split; [|split; [|split]].
  - rewrite Hreads. apply (loop_reads_bound 0).
  - unfold array_trace. apply last_snoc.
  - done.
  - by intros ->.
Qed.

Lemma clone_children_ok fuel cs :
  max_list (fuel_of <$> cs) ≤ fuel → Forall (clone_ok fuel) cs.
Proof using malloc_is_sound malloc_is_total.
  intros Hfuel. apply Forall_forall. intros c Hin.
  apply clone_spec. pose proof (fuel_of_child _ _ Hin). lia.
Qed.

Lemma clone_rel_fuels cs cs' :
  Forall2 clone_rel cs cs' → fuel_of <$> cs' = fuel_of <$> cs.
Proof.
  induction 1 as [|c c' cs cs' Hc _ IH]; [done|].
  rewrite !fmap_cons. f_equal; [by apply clone_rel_fuel|done].
Qed.

Lemma deletes_fresh h h' F : extends_by h h' F → deletes F h' = h.
Proof.
  intros [Hfr Hfm]. apply map_eq. intros a. rewrite lookup_deletes.
  case_decide as Hin; [by rewrite Hfr|by apply Hfm].
Qed.

(** C1. Cloning a valid descriptor tree and destroying the clone both
    return. The clone is built from blocks that were not live before, none
    of which is a block of the source; destroying the clone releases those
    blocks and no other; and the heap afterwards is the heap before, so the
    source is still there, unchanged. The same holds for the child array of
    an aggregate under [ffi_type_clone_array] and [ffi_type_destroy_array]. *)
Theorem destroy_clone_restores t st fuel :
  valid (heap st) t → fuel_of t ≤ fuel →
  (∃ t' st1 st2,
     ffi_type_clone fuel (root t) st = Done (root t') st1 ∧
     ffi_type_destroy fuel (root t') st1 = Done tt st2 ∧
     clone_rel t t' ∧
     (∀ a, a ∈ freed t' → heap st !! a = None ∧ a ∉ addrs t) ∧
     trace st2 = trace st1 ++ destroy_trace t' ∧
     frees_of (destroy_trace t') = freed t' ∧
     heap st2 = heap st ∧
     valid (heap st2) t) ∧
  (∀ p ty cs rest, t = Agg p ty cs rest →
     ∃ copy st1 st2,
       ffi_type_clone_array fuel (elements ty) st = Done copy st1 ∧
       heap st !! copy = None ∧
       ffi_type_destroy_array fuel copy st1 = Done tt st2 ∧
       heap st2 = heap st).
Proof using malloc_is_sound malloc_is_total.
  intros Hv Hfuel. split.
  - destruct (clone_spec t fuel Hfuel st Hv)
      as (t' & st1 & Hrun & Hrel & Hown & Hext).
    exists t', st1, (destroy_post st1 t').
    split; [done|]. split.
    { apply destroy_spec; [|done]. by rewrite (clone_rel_fuel t t'). }
    split; [done|]. split.
    { intros a Ha. destruct Hext as [Hfr _]. split; [by apply Hfr|]. intros Hin.
      destruct (valid_addrs_live _ _ _ Hv Hin) as [b Hb].
      rewrite (Hfr _ Ha) in Hb. done. }
    split; [done|]. split; [apply frees_of_destroy_trace|].
    assert (Heq : heap (destroy_post st1 t') = heap st)
      by (by apply deletes_fresh).
    split; [done|]. by rewrite Heq.
  - intros p ty cs rest ->. simpl in Hfuel.
    pose proof Hv as (_ & _ & _ & _ & Hnn & Hca & Hval%valid_children).
    destruct (clone_array_body_spec fuel fuel cs rest (elements ty) st)
      as (copy & cs' & st1 & Hrun & Hrel & Hown & Hext & _);
      [lia|apply clone_children_ok; lia|done|done|done|lia|].
    exists copy, st1, (destroy_array_post st1 copy cs').
    split; [done|]. split.
    { destruct Hext as [Hfr _]. apply Hfr. apply elem_of_app. right.
      by apply list_elem_of_singleton. }
    split; [|by apply deletes_fresh].
    apply (destroy_array_body_spec fuel fuel cs' []); [|done|].
    + apply destroy_children_ok. rewrite (clone_rel_fuels _ _ Hrel). lia.
    + rewrite <- (Forall2_length _ _ _ Hrel). lia.
Qed.

(** C2. On an array of [n] valid, non-null descriptors followed by the
    sentinel, [ffi_type_clone_array] reads the [n + 1] slots up to the
    sentinel and returns the block that [malloc] then hands out, with exactly
    [n + 1] slots. It fills them in index order: slot [i < n] receives what
    [ffi_type_clone] returns on entry [i] of the source, and slot [n]
    receives the sentinel. Each new entry is the root of a valid tree of the
    shape of the source entry. *)
Theorem clone_array_elementwise types cs rest st fuel :
  content_at (heap st) types = Some (CArray (slots_of (root <$> cs) rest)) →
  Forall (λ c, c ≠ NULL) (root <$> cs) →
  Forall (valid (heap st)) cs →
  fuel_of_array cs ≤ fuel →
  ∃ copy cs' st',
    ffi_type_clone_array fuel types st = Done copy st' ∧
    heap st !! copy = None ∧
    let sta := State (heap st)
                     (trace st ++ (EvRead types <$> seq 0 (S (length cs)))) in
    let stb := State (<[copy := Block true (CArray (replicate (S (length cs)) None))]>
                        (heap st))
                     (trace sta ++ [EvMalloc copy]) in
    copy = malloc_addr sta ∧
    clone_each (ffi_type_clone fuel) types copy 0
      ((root <$> cs) ++ [NULL]) ((root <$> cs') ++ [NULL]) stb st' ∧
    content_at (heap st') copy
      = Some (CArray ((Some <$> (root <$> cs')) ++ [Some NULL])) ∧
    length cs' = length cs ∧
    Forall (λ c, c ≠ NULL) (root <$> cs') ∧
    Forall2 clone_rel cs cs' ∧
    Forall (valid (heap st')) cs'.
Proof using malloc_is_sound malloc_is_total.
  intros Harr Hnn Hval Hfuel. unfold fuel_of_array in Hfuel.
  destruct (clone_array_body_spec fuel fuel cs rest types st)
    as (copy & cs' & st' & Hrun & Hrel & Hown & [Hfr Hfm] & Hceq & Heach);
    [lia|apply clone_children_ok; lia|done|done|done|lia|].
  destruct Hown as (Hcn & Hnn' & Hca & Hval' & _ & _).
  exists copy, cs', st'.
  split; [done|]. split.
  { apply Hfr. apply elem_of_app. right. by apply list_elem_of_singleton. }
  split; [done|]. split; [done|]. split; [done|].
  split; [symmetry; by eapply Forall2_length|]. done.
Qed.

(** C4. On a valid aggregate, [ffi_type_clone] returns the block that
    [malloc] hands out, which was not live before and so is not the source.
    That block first receives the source by [memcpy]; then
    [ffi_type_clone_array] runs on the source's [elements], and what it
    returns becomes the [elements] field of the copy, whose size, alignment
    and tag stay those of the source. The copy is a valid tree of the shape
    of the source, its tag is an aggregate tag, and [ffi_type_destroy] on it
    returns and releases it. *)
Theorem clone_aggregate_copies p ty cs rest st fuel :
  valid (heap st) (Agg p ty cs rest) →
  fuel_of (Agg p ty cs rest) ≤ S fuel →
  ∃ copy arr' cs' st1 st2 st' st'',
    ffi_type_clone (S fuel) p st = Done copy st' ∧
    copy = malloc_addr st ∧ copy ≠ NULL ∧ copy ≠ p ∧ heap st !! copy = None ∧
    st1 = State (<[copy := Block true (CType (Some ty))]> (heap st))
                (trace st ++ [EvMalloc copy]) ∧
    ffi_type_clone_array fuel (elements ty) st1 = Done arr' st2 ∧
    st' = set_heap <[copy := Block true (CType (Some
            (Build_ffi_type (size ty) (alignment ty) (type ty) arr')))]> st2 ∧
    is_aggregate (type (Build_ffi_type (size ty) (alignment ty) (type ty) arr')) = true ∧
    clone_rel (Agg p ty cs rest)
      (Agg copy (Build_ffi_type (size ty) (alignment ty) (type ty) arr') cs' []) ∧
    valid (heap st')
      (Agg copy (Build_ffi_type (size ty) (alignment ty) (type ty) arr') cs' []) ∧
    ffi_type_destroy (S fuel) copy st' = Done tt st'' ∧
    heap st'' !! copy = None.
Proof using malloc_is_sound malloc_is_total.
  intros Hv Hfuel. simpl in Hfuel.
  destruct (clone_agg_spec fuel p ty cs rest st)
    as (copy & arr' & cs' & st3 & Hceq & Hcn & Hcf & Harr & Hrun & Hrel & Hown & Hext);
    [apply clone_children_ok; lia|lia|done|].
  simpl in Hrun, Hrel, Hown, Hext.
  set (t' := Agg copy _ cs' []) in *.
  set (st' := set_heap _ st3) in *.
  exists copy, arr', cs',
    (State (<[copy := Block true (CType (Some ty))]> (heap st))
           (trace st ++ [EvMalloc copy])),
    st3, st', (destroy_post st' t').
  split; [exact Hrun|]. split; [done|]. split; [done|]. split.
  { intros ->. destruct Hv as (_ & [m Hm]%content_at_Some & _). congruence. }
  split; [done|]. split; [reflexivity|]. split; [exact Harr|].
  split; [done|]. split; [by destruct Hv as (_ & _ & ? & _)|].
  split; [done|]. split; [by destruct Hown|]. split.
  - apply (destroy_spec t'); [|done].
    rewrite (clone_rel_fuel _ _ Hrel). simpl. lia.
  - simpl. rewrite lookup_deletes, decide_True; [done|].
    apply elem_of_app. right. apply elem_of_cons. right.
    by apply list_elem_of_singleton.
Qed.

(** C9. On an exclusively owned tree [ffi_type_clone] and
    [ffi_type_destroy] return, and on the child array of an owned aggregate
    so do [ffi_type_clone_array] and [ffi_type_destroy_array]: with any
    amount of fuel from [fuel_of] of the tree on, none of them runs out.
    [fuel_of] is a measure on the structure of the tree: it bounds the
    length of the child array, which the loops walk, and it is strictly
    smaller on every child, which the recursive calls receive. *)
Theorem always_terminates t st :
  owned (heap st) t →
  ∀ fuel, fuel_of t ≤ fuel →
    (∃ c st', ffi_type_clone fuel (root t) st = Done c st') ∧
    (∃ st', ffi_type_destroy fuel (root t) st = Done tt st') ∧
    (∀ p ty cs rest, t = Agg p ty cs rest →
       length cs < fuel_of t ∧
       (∀ c, c ∈ cs → fuel_of c < fuel_of t) ∧
       (∃ a st', ffi_type_clone_array fuel (elements ty) st = Done a st') ∧
       (∃ st', ffi_type_destroy_array fuel (elements ty) st = Done tt st')).
Proof using malloc_is_sound malloc_is_total.
  intros Hown fuel Hfuel. pose proof Hown as [Hv _]. split; [|split].
  - destruct (clone_spec t fuel Hfuel st Hv) as (t' & st' & Hrun & _).
    by exists (root t'), st'.
  - eexists. by apply (destroy_spec t).
  - intros p ty cs rest ->.
    pose proof (owned_children _ _ _ _ _ Hown) as [Harr _].
    pose proof Hv as (_ & _ & _ & _ & Hnn & Hca & Hval%valid_children).
    simpl in Hfuel. split; [simpl; lia|]. split; [|split].
    + intros c Hc. pose proof (fuel_of_child _ _ Hc). simpl. lia.
    + destruct (clone_array_body_spec fuel fuel cs rest (elements ty) st)
        as (copy & cs' & st' & Hrun & _);
        [lia|apply clone_children_ok; lia|done|done|done|lia|].
      by exists copy, st'.
    + eexists.
      apply (destroy_array_body_spec fuel fuel cs rest);
        [apply destroy_children_ok; lia|done|lia].
Qed.

(** C10. The clone of a valid aggregate is a deep copy that shares the
    atomic descriptors of the source. The run returns a tree that has the
    shape of the source and that the final heap holds, exclusively owned.
    Where an entry of the source's array is atomic, the entry of the clone's
    array at the same index is the same pointer; where it is an aggregate,
    the clone's entry is a block that was not live before. The atomic
    descriptors that the clone refers to, at any depth, are those of the
    source: each is the very block of the initial heap, unchanged, still
    atomic, and none of the blocks that the clone owns. The clone itself,
    its array, and every block it owns were not live before. *)
Theorem clone_shares_atoms p ty cs rest st fuel :
  valid (heap st) (Agg p ty cs rest) → fuel_of (Agg p ty cs rest) ≤ fuel →
  ∃ copy ty' cs' st',
    ffi_type_clone fuel p st = Done copy st' ∧
    clone_rel (Agg p ty cs rest) (Agg copy ty' cs' []) ∧
    owned (heap st') (Agg copy ty' cs' []) ∧
    content_at (heap st') copy = Some (CType (Some ty')) ∧
    content_at (heap st') (elements ty')
      = Some (CArray (slots_of (root <$> cs') [])) ∧
    heap st !! copy = None ∧ heap st !! elements ty' = None ∧
    (∀ i a tya,
       (root <$> cs) !! i = Some a →
       content_at (heap st) a = Some (CType (Some tya)) →
       is_aggregate (type tya) = false →
       (root <$> cs') !! i = Some a) ∧
    (∀ i a tya,
       (root <$> cs) !! i = Some a →
       content_at (heap st) a = Some (CType (Some tya)) →
       is_aggregate (type tya) = true →
       ∃ a', (root <$> cs') !! i = Some a' ∧ heap st !! a' = None) ∧
    atoms (Agg copy ty' cs' []) = atoms (Agg p ty cs rest) ∧
    (∀ a, a ∈ atoms (Agg copy ty' cs' []) →
       atomic_at (heap st) a ∧ atomic_at (heap st') a ∧
       heap st' !! a = heap st !! a ∧
       a ∉ freed (Agg copy ty' cs' [])) ∧
    (∀ a, a ∈ freed (Agg copy ty' cs' []) → heap st !! a = None).
Proof using malloc_is_sound malloc_is_total.
  intros Hv Hfuel.
  destruct (clone_spec _ fuel Hfuel st Hv)
    as (t' & st' & Hrun & Hrel & Hown' & Hfr & Hkeep).
  pose proof Hown' as (Hv' & _ & _).
  pose proof Hrel as Hrel0.
  inversion Hrel as [|? ? ? ? copy arr' cs' HF]; subst.
  set (ty' := Build_ffi_type _ _ _ _) in *.
  exists copy, ty', cs', st'.
  pose proof Hv' as (_ & Hc' & _ & _ & _ & Hca' & _).
  pose proof Hv as (_ & _ & _ & _ & _ & _ & Hval%valid_children).
  assert (Hentry : ∀ i a, (root <$> cs) !! i = Some a →
    ∃ c c', cs !! i = Some c ∧ root c = a ∧ cs' !! i = Some c' ∧
            clone_rel c c' ∧ valid (heap st) c).
  { intros i a Hi. rewrite list_lookup_fmap in Hi.
    destruct (cs !! i) as [c|] eqn:Hci; [|done]. simpl in Hi.
    destruct (Forall2_lookup_l _ _ _ _ _ HF Hci) as (c' & Hci' & Hcc).
    exists c, c'. repeat split; try done; [congruence|].
    rewrite Forall_forall in Hval. apply Hval. by eapply list_elem_of_lookup_2. }
  split; [done|]. split; [done|]. split; [done|].
  split; [done|]. split; [done|]. split.
  { apply Hfr. simpl. apply elem_of_app. right. apply elem_of_cons. right.
    by apply list_elem_of_singleton. }
  split.
  { apply Hfr. simpl. apply elem_of_app. right. apply elem_of_cons. by left. }
  split; [|split; [|split; [|split]]].
  - intros i a tya Hi Hty Hat.
    destruct (Hentry i a Hi) as (c & c' & Hci & <- & Hci' & Hcc & Hvc).
    rewrite list_lookup_fmap, Hci'. simpl. f_equal.
    destruct c as [a ty0|a ty0 cs0 rest0]; [by inversion Hcc|].
    destruct Hvc as (_ & Hty0 & Hagg0 & _). simpl in Hty. congruence.
  - intros i a tya Hi Hty Hagg.
    destruct (Hentry i a Hi) as (c & c' & Hci & <- & Hci' & Hcc & Hvc).
    exists (root c'). split; [by rewrite list_lookup_fmap, Hci'|].
    destruct c as [a ty0|a ty0 cs0 rest0].
    { destruct Hvc as (_ & Hty0 & Hat0). simpl in Hty. congruence. }
    inversion Hcc; subst. apply Hfr. simpl.
    apply elem_of_app. left. apply elem_of_bind_tree.
    eexists. split; [by eapply list_elem_of_lookup_2|].
    simpl. apply elem_of_app. right. apply elem_of_cons. right.
    by apply list_elem_of_singleton.
  - by apply (clone_rel_atoms _ _ Hrel0).
  - intros a Ha.
    pose proof (atoms_atomic _ _ _ Hv' Ha) as Hat'.
    assert (Hnf : a ∉ freed (Agg copy ty' cs' []))
      by (intros Hin; by apply (valid_freed_kind _ _ _ Hv' Hin)).
    rewrite (clone_rel_atoms _ _ Hrel0) in Ha.
    repeat split; [by apply (atoms_atomic _ _ _ Hv Ha)|done|by apply Hkeep|done].
  - done.
Qed.

(** ** Edge behaviour: dangling, null, unterminated, static, out of memory *)

Lemma bind_undefined {A B} (m : M A) (k : A → M B) st :
  m st = Undefined → (m ≫= k) st = Undefined.
Proof. intros H. unfold mbind, M_bind, bind. by rewrite H. Qed.

Lemma load_tag_dangling st p : heap st !! p = None → load_tag p st = Undefined.
Proof.
  intros H. unfold load_tag. apply bind_undefined. unfold load_type. by rewrite H.
Qed.

Lemma load_slot_dangling st p i : heap st !! p = None → load_slot p i st = Undefined.
Proof. intros H. unfold load_slot. by rewrite H. Qed.

Lemma load_slot_unwritten st p slots i :
  content_at (heap st) p = Some (CArray slots) →
  (∀ v, slots !! i ≠ Some (Some v)) →
  load_slot p i st = Undefined.
Proof.
  intros [m H]%content_at_Some Hi. unfold load_slot. rewrite H.
  destruct (slots !! i) as [[v|]|] eqn:Hs; [by destruct (Hi v)|done|done].
Qed.

Lemma destroy_dangling fuel p st :
  p ≠ NULL → heap st !! p = None → ffi_type_destroy (S fuel) p st = Undefined.
Proof.
  intros Hp Hnone. simpl. rewrite is_null_false by done.
  by apply bind_undefined, load_tag_dangling.
Qed.

Lemma clone_dangling fuel p st :
  p ≠ NULL → heap st !! p = None → ffi_type_clone (S fuel) p st = Undefined.
Proof.
  intros Hp Hnone. simpl. rewrite is_null_false by done.
  by apply bind_undefined, load_tag_dangling.
Qed.

Lemma destroy_array_dangling fuel types st :
  heap st !! types = None → ffi_type_destroy_array (S fuel) types st = Undefined.
Proof.
  intros Hnone. unfold ffi_type_destroy_array, destroy_array_body.
  apply bind_undefined. simpl. by apply bind_undefined, load_slot_dangling.
Qed.

Lemma clone_array_dangling fuel types st :
  heap st !! types = None → ffi_type_clone_array (S fuel) types st = Undefined.
Proof.
  intros Hnone. unfold ffi_type_clone_array, clone_array_body.
  apply bind_undefined. simpl. by apply bind_undefined, load_slot_dangling.
Qed.

(** X1. Once [ffi_type_destroy] has returned on an owned aggregate, the
    descriptor and its child array are gone: destroying or cloning the same
    pointer again, or its array, is undefined. *)
Theorem destroyed_is_dangling p ty cs rest st fuel :
  owned (heap st) (Agg p ty cs rest) → fuel_of (Agg p ty cs rest) ≤ fuel →
  ∃ st',
    ffi_type_destroy fuel p st = Done tt st' ∧
    ∀ fuel',
      ffi_type_destroy (S fuel') p st' = Undefined ∧
      ffi_type_clone (S fuel') p st' = Undefined ∧
      ffi_type_destroy_array (S fuel') (elements ty) st' = Undefined ∧
      ffi_type_clone_array (S fuel') (elements ty) st' = Undefined.
Proof.
  intros Hown Hfuel. exists (destroy_post st (Agg p ty cs rest)).
  split; [by apply (destroy_spec (Agg p ty cs rest))|].
  destruct Hown as [(Hp & _) _].
  assert (Hgone : ∀ a, a ∈ [elements ty; p] →
            heap (destroy_post st (Agg p ty cs rest)) !! a = None).
  { intros a Ha. simpl. rewrite lookup_deletes, decide_True; [done|].
    apply elem_of_app. by right. }
  assert (Hpg := Hgone p ltac:(right; left)).
  assert (Hag := Hgone (elements ty) ltac:(left)).
  intros fuel'. split; [by apply destroy_dangling|].
  split; [by apply clone_dangling|].
  split; [by apply destroy_array_dangling|by apply clone_array_dangling].
Qed.

(** X2. Unlike [ffi_type_destroy] and [ffi_type_clone], the array functions
    do not accept the null pointer: they read its first slot, which is
    undefined. So is destroying an aggregate whose [elements] is null. *)
Theorem null_array_is_undefined fuel st p ty :
  heap st !! NULL = None →
  p ≠ NULL → content_at (heap st) p = Some (CType (Some ty)) →
  is_aggregate (type ty) = true → elements ty = NULL →
  ffi_type_destroy_array (S fuel) NULL st = Undefined ∧
  ffi_type_clone_array (S fuel) NULL st = Undefined ∧
  ffi_type_destroy (S (S fuel)) p st = Undefined.
Proof.
  intros Hnull Hp Hc Hagg Hes.
  split; [by apply destroy_array_dangling|].
  split; [by apply clone_array_dangling|].
  simpl ffi_type_destroy. rewrite is_null_false by done.
  erewrite bind_done by (by apply load_tag_done). rewrite Hagg.
  erewrite bind_done by (by apply load_elements_done). rewrite Hes.
  apply bind_undefined. by apply (destroy_array_dangling fuel).
Qed.

Lemma size_loop_unterminated todo : ∀ done_ tail types st fuel sz,
  content_at (heap st) types = Some (CArray ((Some <$> (done_ ++ todo)) ++ tail)) →
  Forall (λ c, c ≠ NULL) todo →
  (∀ v, head tail ≠ Some (Some v)) →
  length todo < fuel →
  size_loop fuel types (length done_) sz st = Undefined.
Proof.
  induction todo as [|c todo IH];
    intros done_ tail types st fuel sz Harr Hnn Htail Hfuel;
    (destruct fuel as [|fuel]; [lia|]); simpl size_loop.
  - rewrite app_nil_r in Harr. apply bind_undefined.
    eapply load_slot_unwritten; [done|]. intros v.
    rewrite lookup_app_r; rewrite length_fmap; [|lia].
    rewrite Nat.sub_diag. rewrite <- head_lookup. apply Htail.
  - apply Forall_cons in Hnn as [Hcn Hnn].
    erewrite bind_done; last first.
    { eapply load_slot_done; [done|]. rewrite lookup_app_l.
      - by rewrite list_lookup_fmap, lookup_app_r, Nat.sub_diag.
      - rewrite length_fmap, length_app. simpl. lia. }
    rewrite is_null_false by done.
    replace (S (length done_)) with (length (done_ ++ [c]))
      by (rewrite length_app; simpl; lia).
    apply (IH (done_ ++ [c]) tail); [by rewrite <- app_assoc|done|done|].
    simpl in Hfuel. lia.
Qed.

Lemma destroy_atomic fuel a st :
  a ≠ NULL → atomic_at (heap st) a → ffi_type_destroy (S fuel) a st = Done tt st.
Proof.
  intros Ha (ty & Hty & Hat). simpl. rewrite is_null_false by done.
  erewrite bind_done by (by apply load_tag_done). by rewrite Hat.
Qed.

Lemma destroy_loop_unterminated fuel todo : ∀ done_ tail types st fuel',
  content_at (heap st) types = Some (CArray ((Some <$> (done_ ++ todo)) ++ tail)) →
  Forall (λ c, c ≠ NULL ∧ atomic_at (heap st) c) todo →
  (∀ v, head tail ≠ Some (Some v)) →
  length todo < fuel' →
  destroy_loop (ffi_type_destroy (S fuel)) fuel' types (length done_) st = Undefined.
Proof.
  induction todo as [|c todo IH];
    intros done_ tail types st fuel' Harr Hat Htail Hfuel;
    (destruct fuel' as [|fuel']; [lia|]); simpl destroy_loop.
  - rewrite app_nil_r in Harr. apply bind_undefined.
    eapply load_slot_unwritten; [done|]. intros v.
    rewrite lookup_app_r; rewrite length_fmap; [|lia].
    rewrite Nat.sub_diag. rewrite <- head_lookup. apply Htail.
  - apply Forall_cons in Hat as [[Hcn Hca] Hat].
    assert (Hslot : ((Some <$> done_ ++ c :: todo) ++ tail) !! length done_
                    = Some (Some c)).
    { rewrite lookup_app_l.
      - by rewrite list_lookup_fmap, lookup_app_r, Nat.sub_diag.
      - rewrite length_fmap, length_app. simpl. lia. }
    erewrite bind_done by (by eapply load_slot_done).
    rewrite is_null_false by done.
    erewrite bind_done by (by eapply load_slot_done).
    erewrite bind_done by (by apply destroy_atomic).
    replace (S (length done_)) with (length (done_ ++ [c]))
      by (rewrite length_app; simpl; lia).
    apply (IH (done_ ++ [c]) tail); [by rewrite <- app_assoc|done|done|].
    simpl in Hfuel. lia.
Qed.

(** X3. An array without sentinel: its entries, none of them null, are
    followed by the end of the block or by a slot that was never written.
    On such an array the first loop of [ffi_type_clone_array], the one that
    counts the entries and that runs before [malloc] is called, is
    undefined, and so [ffi_type_clone_array] is, whatever the entries point
    to and whatever the allocator. When the entries are atomic descriptors,
    the loop of [ffi_type_destroy_array] is undefined, and so
    [ffi_type_destroy_array] is, before the [free] of the array. *)
Theorem unterminated_array_is_undefined types ps tail st fuel :
  content_at (heap st) types = Some (CArray ((Some <$> ps) ++ tail)) →
  Forall (λ c, c ≠ NULL) ps →
  (∀ v, head tail ≠ Some (Some v)) →
  length ps < fuel →
  size_loop fuel types 0 1 st = Undefined ∧
  ffi_type_clone_array fuel types st = Undefined ∧
  (Forall (atomic_at (heap st)) ps →
     destroy_loop (ffi_type_destroy fuel) fuel types 0 st = Undefined ∧
     ffi_type_destroy_array fuel types st = Undefined).
Proof.
  intros Harr Hnn Htail Hfuel.
  assert (Hsize : size_loop fuel types 0 1 st = Undefined)
    by (by apply (size_loop_unterminated ps [] tail)).
  split; [done|]. split.
  - unfold ffi_type_clone_array, clone_array_body. by apply bind_undefined.
  - intros Hat.
    assert (Hloop : destroy_loop (ffi_type_destroy fuel) fuel types 0 st = Undefined).
    { destruct fuel as [|fuel]; [lia|].
      apply (destroy_loop_unterminated fuel ps [] tail); try done.
      rewrite Forall_forall in Hnn, Hat. apply Forall_forall. intros c Hc.
      split; [by apply Hnn|by apply Hat]. }
    split; [done|].
    unfold ffi_type_destroy_array, destroy_array_body. by apply bind_undefined.
Qed.

(** X4. When [malloc] has no memory left, [ffi_type_clone] on a valid
    aggregate and [ffi_type_clone_array] on its child array stop at the
    [assert] that follows the allocation. *)
Theorem allocation_failure_aborts p ty cs rest st fuel :
  valid (heap st) (Agg p ty cs rest) →
  (∀ s, malloc_addr s = NULL) →
  length cs < fuel →
  ffi_type_clone (S fuel) p st = Aborted ∧
  ffi_type_clone_array fuel (elements ty) st = Aborted.
Proof.
  intros (Hp & Hc & Hagg & Hes & Hnn & Hca & _) Hfail Hfuel. split.
  - by apply (clone_aborts_without_memory fuel p ty).
  - unfold ffi_type_clone_array, clone_array_body.
    pose proof (size_loop_spec (root <$> cs) [] rest (elements ty) st fuel 1) as Hsize.
    rewrite length_fmap in Hsize.
    erewrite bind_done by (by apply Hsize).
    erewrite bind_done by (unfold malloc; by rewrite Hfail).
    done.
Qed.

(** X5. [ffi_type_destroy] releases every descriptor that carries an
    aggregate tag, wherever it lives. On an aggregate in static storage
    whose children and array are heap-allocated and exclusively owned, the
    call of [ffi_type_destroy_array] on the child array returns: it has
    released the blocks of the children and then the array, and has left the
    descriptor as it was. In the state that it leaves, the [free] of the
    descriptor is undefined, and so [ffi_type_destroy] is. *)
Theorem destroy_static_is_undefined p ty cs rest st fuel :
  valid (heap st) (Agg p ty cs rest) →
  owned_array (heap st) (elements ty) cs rest →
  p ∉ cs ≫= freed →
  blk_malloc <$> heap st !! p = Some false →
  fuel_of (Agg p ty cs rest) ≤ S fuel →
  ∃ st1 tr,
    ffi_type_destroy_array fuel (elements ty) st = Done tt st1 ∧
    trace st1 = trace st ++ tr ∧
    frees_of tr = (cs ≫= freed) ++ [elements ty] ∧
    heap st1 = deletes ((cs ≫= freed) ++ [elements ty]) (heap st) ∧
    (∀ a, a ∈ (cs ≫= freed) ++ [elements ty] → heap st1 !! a = None) ∧
    heap st1 !! p = heap st !! p ∧
    free p st1 = Undefined ∧
    ffi_type_destroy (S fuel) p st = Undefined.
Proof.
  intros Hv Harr Hpc Hstatic Hfuel.
  pose proof Hv as (Hp & Hc & Hagg & Hes & _ & Hca & _).
  simpl in Hfuel.
  assert (Hrun : ffi_type_destroy_array fuel (elements ty) st
                 = Done tt (destroy_array_post st (elements ty) cs)).
  { apply (destroy_array_body_spec fuel fuel cs rest);
      [apply destroy_children_ok; lia|done|lia]. }
  assert (Hnp : p ∉ (cs ≫= freed) ++ [elements ty]).
  { intros [Hin| ->%list_elem_of_singleton]%elem_of_app; [done|].
    apply content_at_Some in Hc as [m Hm]. apply content_at_Some in Hca as [m' Hm'].
    congruence. }
  assert (Hkeep : heap (destroy_array_post st (elements ty) cs) !! p = heap st !! p).
  { simpl. by rewrite lookup_deletes, decide_False. }
  assert (Hfree : free p (destroy_array_post st (elements ty) cs) = Undefined).
  { unfold free. rewrite is_null_false by done. rewrite Hkeep.
    by destruct (heap st !! p) as [[[] c]|]. }
  exists (destroy_array_post st (elements ty) cs),
    (array_trace (elements ty) (destroy_trace <$> cs)).
  split; [done|]. split; [done|]. split.
  { unfold array_trace, frees_of. rewrite omap_app. simpl.
    fold (frees_of (loop_trace (elements ty) 0 (destroy_trace <$> cs))).
    rewrite frees_of_loop_trace, list_fmap_bind. f_equal.
    apply Forall_bind_ext, Forall_forall. intros c _. simpl.
    apply frees_of_destroy_trace. }
  split; [done|]. split.
  { intros a Ha. simpl. by rewrite lookup_deletes, decide_True. }
  split; [done|]. split; [done|].
  simpl ffi_type_destroy. rewrite is_null_false by done.
  erewrite bind_done by (by apply load_tag_done). rewrite Hagg.
  erewrite bind_done by (by apply load_elements_done).
  by erewrite bind_done by exact Hrun.
Qed.

(** ** Independence of a clone and its source, and what is allocated *)

Lemma extends_by_subseteq h h' F : extends_by h h' F → h ⊆ h'.
Proof.
  intros Hext. apply map_subseteq_spec. intros a b Hb.
  rewrite (extends_by_live _ _ _ _ Hext); [done|by eexists].
Qed.

Lemma owned_subseteq h h' t : h ⊆ h' → owned h t → owned h' t.
Proof.
  intros Hsub (Hv & Hnd & Hmal). split; [|split; [done|]].
  - eapply valid_agree; [|done]. intros a Ha.
    destruct (valid_addrs_live _ _ _ Hv Ha) as [b Hb].
    rewrite Hb. by eapply lookup_weaken.
  - eapply Forall_impl; [exact Hmal|]. intros a Ha. unfold malloced in *.
    destruct (h !! a) as [b|] eqn:Hb; [|done].
    by rewrite (lookup_weaken _ _ _ _ Hb Hsub).
Qed.

Lemma length_freed t : length (freed t) = 2 * aggregates t.
Proof.
  induction t as [p ty|p ty cs rest IH] using tree_ind'; simpl; [done|].
  rewrite length_app. simpl.
  assert (length (cs ≫= freed) = 2 * sum_list (aggregates <$> cs)) as ->; [|lia].
  induction cs as [|c cs IHcs]; [done|].
  apply Forall_cons in IH as [Hc IH].
  rewrite bind_cons, length_app, fmap_cons, Hc, (IHcs IH). simpl. lia.
Qed.

Lemma clone_rel_aggregates t : ∀ t', clone_rel t t' → aggregates t' = aggregates t.
Proof.
  induction t as [p ty|p ty cs rest IH] using tree_ind';
    intros t' Hrel; inversion Hrel as [|? ? ? ? ? ? cs' HF]; subst; simpl; [done|].
  f_equal. clear Hrel. induction HF as [|c c' cs cs' Hc HF IHF]; [done|].
  apply Forall_cons in IH as [IHc IH]. rewrite !fmap_cons. simpl.
  by rewrite (IHc _ Hc), (IHF IH).
Qed.

Lemma size_deletes F : ∀ h,
  NoDup F → (∀ a, a ∈ F → is_Some (h !! a)) →
  base.size (deletes F h) + length F = base.size h.
Proof.
  induction F as [|a F IH]; intros h Hnd Hlive; simpl; [lia|].
  apply NoDup_cons in Hnd as [Ha Hnd].
  destruct (Hlive a) as [b Hb]; [left|].
  change (deletes (a :: F) h) with (deletes F (delete a h)).
  specialize (IH (delete a h) Hnd).
  rewrite <- (insert_delete_id h a b Hb) at 2.
  rewrite map_size_insert_None by apply lookup_delete_eq.
  rewrite <- IH; [lia|].
  intros c Hc. rewrite lookup_delete_ne; [apply Hlive; by right|].
  by intros ->.
Qed.

Lemma owned_live h t a : owned h t → a ∈ freed t → is_Some (h !! a).
Proof.
  intros (_ & _ & Hmal) Ha. rewrite Forall_forall in Hmal.
  specialize (Hmal a Ha). unfold malloced in Hmal. by destruct (h !! a).
Qed.

(** X6. [ffi_type_clone] on a valid tree leaves every block that was live
    exactly as it was, so the source stays valid, and stays owned if it was.
    The copy is exclusively owned even where the source shares subtrees, and
    shares no block that it owns with the source. *)
Theorem clone_keeps_source t st fuel :
  valid (heap st) t → fuel_of t ≤ fuel →
  ∃ t' st',
    ffi_type_clone fuel (root t) st = Done (root t') st' ∧
    heap st ⊆ heap st' ∧
    valid (heap st') t ∧
    (owned (heap st) t → owned (heap st') t) ∧
    owned (heap st') t' ∧
    (∀ a, a ∈ freed t' → a ∉ addrs t).
Proof using malloc_is_sound malloc_is_total.
  intros Hv Hfuel.
  destruct (clone_spec t fuel Hfuel st Hv)
    as (t' & st' & Hrun & Hrel & Hown & Hext).
  pose proof (extends_by_subseteq _ _ _ Hext) as Hsub.
  exists t', st'. split; [done|]. split; [done|]. split.
  { eapply valid_agree; [|done]. intros a Ha.
    eapply extends_by_live; [done|]. by eapply valid_addrs_live. }
  split; [by apply owned_subseteq|]. split; [done|].
  intros a Ha Hin. destruct Hext as [Hfr _].
  destruct (valid_addrs_live _ _ _ Hv Hin) as [b Hb].
  rewrite (Hfr _ Ha) in Hb. done.
Qed.

(** X7. [ffi_type_clone] on a valid tree allocates two blocks for every
    aggregate node of the source, the descriptor and its array, and none for
    an atomic descriptor: the heap grows by exactly that many blocks. *)
Theorem clone_allocates_per_aggregate t st fuel :
  valid (heap st) t → fuel_of t ≤ fuel →
  ∃ c st',
    ffi_type_clone fuel (root t) st = Done c st' ∧
    base.size (heap st') = base.size (heap st) + 2 * aggregates t.
Proof using malloc_is_sound malloc_is_total.
  intros Hv Hfuel.
  destruct (clone_spec t fuel Hfuel st Hv)
    as (t' & st' & Hrun & Hrel & Hown & Hext).
  exists (root t'), st'. split; [done|].
  rewrite <- (clone_rel_aggregates _ _ Hrel), <- length_freed.
  rewrite <- (deletes_fresh _ _ _ Hext) at 1.
  symmetry. apply size_deletes; [by destruct Hown as (_ & ? & _)|].
  intros a Ha. by apply (owned_live _ t').
Qed.

(** X8. After a clone of an owned tree, destroying the source returns and
    leaves the clone exclusively owned, so the clone outlives its source and
    can be destroyed later. *)
Theorem destroy_source_keeps_clone t st fuel :
  owned (heap st) t → fuel_of t ≤ fuel →
  ∃ t' st1 st2 st3,
    ffi_type_clone fuel (root t) st = Done (root t') st1 ∧
    ffi_type_destroy fuel (root t) st1 = Done tt st2 ∧
    clone_rel t t' ∧
    owned (heap st2) t' ∧
    (∀ a, a ∈ freed t → heap st2 !! a = None) ∧
    ffi_type_destroy fuel (root t') st2 = Done tt st3.
Proof using malloc_is_sound malloc_is_total.
  intros Hown Hfuel. pose proof Hown as [Hv _].
  destruct (clone_spec t fuel Hfuel st Hv)
    as (t' & st1 & Hrun & Hrel & Hown' & Hext).
  pose proof (owned_subseteq _ _ _ (extends_by_subseteq _ _ _ Hext) Hown) as Hown1.
  assert (Hdisj : ∀ a, a ∈ freed t → a ∉ freed t').
  { intros a Ha Ha'. destruct Hext as [Hfr _].
    destruct (owned_live _ _ _ Hown Ha) as [b Hb].
    rewrite (Hfr _ Ha') in Hb. done. }
  assert (Hown2 : owned (heap (destroy_post st1 t)) t').
  { destruct Hown' as (Hv' & Hnd' & Hmal'). destruct Hown1 as (Hv1 & _).
    split; [|split; [done|]].
    - apply valid_deletes; [done| |done].
      intros a Ha. by apply (valid_freed_kind _ t).
    - rewrite Forall_forall in Hmal'. apply Forall_forall. intros a Ha.
      apply malloced_deletes; [by apply Hmal'|].
      intros Hin. by apply (Hdisj a). }
  exists t', st1, (destroy_post st1 t), (destroy_post (destroy_post st1 t) t').
  split; [done|]. split; [by apply destroy_spec|]. split; [done|].
  split; [done|]. split.
  - intros a Ha. simpl. by rewrite lookup_deletes, decide_True.
  - apply destroy_spec; [|done]. by rewrite (clone_rel_fuel t t').
Qed.

(** X9. [ffi_type_destroy] on an owned tree leaves the atomic descriptors
    that the tree refers to live and unchanged, and shrinks the heap by
    exactly two blocks for every aggregate node. *)
Theorem destroy_spares_atoms t st fuel :
  owned (heap st) t → fuel_of t ≤ fuel →
  ∃ st',
    ffi_type_destroy fuel (root t) st = Done tt st' ∧
    (∀ a, a ∈ atoms t → heap st' !! a = heap st !! a ∧ atomic_at (heap st') a) ∧
    base.size (heap st') + 2 * aggregates t = base.size (heap st).
Proof.
  intros Hown Hfuel. exists (destroy_post st t).
  split; [by apply destroy_spec|]. pose proof Hown as (Hv & Hnd & _). split.
  - intros a Ha. pose proof (atoms_atomic _ _ _ Hv Ha) as Hat.
    assert (heap (destroy_post st t) !! a = heap st !! a) as Heq.
    { simpl. rewrite lookup_deletes, decide_False; [done|].
      intros Hin. by apply (valid_freed_kind _ _ _ Hv Hin). }
    split; [done|]. destruct Hat as (ty & Hty & Hat). exists ty.
    split; [|done]. unfold content_at in *. by rewrite Heq.
  - rewrite <- length_freed. simpl. apply size_deletes; [done|].
    intros a Ha. by apply (owned_live _ t).
Qed.

(** X14. Two clones of the same valid tree, taken one after the other, are
    both exclusively owned in the final heap and own no block in common; the
    source is still valid. *)
Theorem clones_are_disjoint t st fuel :
  valid (heap st) t → fuel_of t ≤ fuel →
  ∃ t1 t2 st1 st2,
    ffi_type_clone fuel (root t) st = Done (root t1) st1 ∧
    ffi_type_clone fuel (root t) st1 = Done (root t2) st2 ∧
    owned (heap st2) t1 ∧ owned (heap st2) t2 ∧
    (∀ a, a ∈ freed t1 → a ∉ freed t2) ∧
    valid (heap st2) t.
Proof using malloc_is_sound malloc_is_total.
  intros Hv Hfuel.
  destruct (clone_spec t fuel Hfuel st Hv)
    as (t1 & st1 & Hrun1 & _ & Hown1 & Hext1).
  assert (Hv1 : valid (heap st1) t).
  { eapply valid_agree; [|done]. intros a Ha.
    eapply extends_by_live; [done|]. by eapply valid_addrs_live. }
  destruct (clone_spec t fuel Hfuel st1 Hv1)
    as (t2 & st2 & Hrun2 & _ & Hown2 & Hext2).
  exists t1, t2, st1, st2. split; [done|]. split; [done|].
  split; [by apply (owned_subseteq _ _ _ (extends_by_subseteq _ _ _ Hext2))|].
  split; [done|]. split.
  - intros a Ha1 Ha2. destruct Hext2 as [Hfr _].
    destruct (owned_live _ _ _ Hown1 Ha1) as [b Hb].
    rewrite (Hfr _ Ha2) in Hb. done.
  - eapply valid_agree; [|exact Hv1]. intros a Ha.
    eapply extends_by_live; [done|]. by eapply valid_addrs_live.
Qed.

(** ** What a returning run never does *)

Lemma bind_inv {A B} (m : M A) (k : A → M B) st b st' :
  (m ≫= k) st = Done b st' → ∃ a st1, m st = Done a st1 ∧ k a st1 = Done b st'.
Proof.
  unfold mbind, M_bind, bind. destruct (m st) as [a st1| | |]; [|done..].
  intros H. by exists a, st1.
Qed.

Lemma releases_only_unchanged {A} (m : M A) :
  (∀ st a st', m st = Done a st' → st' = st) → releases_only m.
Proof.
  intros Hm st a st' ->%Hm. exists []. rewrite app_nil_r.
  split; [done|]. split; [done|]. split; [constructor|]. by split; [constructor|].
Qed.

Lemma releases_only_bind {A B} (m : M A) (k : A → M B) :
  releases_only m → (∀ a, releases_only (k a)) → releases_only (m ≫= k).
Proof.
  intros Hm Hk st b st' (a & st1 & H1 & H2)%bind_inv.
  destruct (Hm _ _ _ H1) as (tr1 & Ht1 & Hm1 & Hnd1 & Hmal1 & Hh1).
  destruct (Hk a _ _ _ H2) as (tr2 & Ht2 & Hm2 & Hnd2 & Hmal2 & Hh2).
  rewrite Hh1 in Hmal2, Hh2.
  assert (Hlive : ∀ x, x ∈ frees_of tr2 →
            (x ∉ frees_of tr1) ∧ malloced (heap st) x).
  { intros x Hx. rewrite Forall_forall in Hmal2. specialize (Hmal2 x Hx).
    unfold malloced in *. rewrite lookup_deletes in Hmal2.
    by destruct (decide (x ∈ frees_of tr1)). }
  exists (tr1 ++ tr2). unfold frees_of, mallocs_of in *. rewrite !omap_app.
  split; [by rewrite Ht2, Ht1, app_assoc|]. split; [by rewrite Hm1, Hm2|].
  split; [|split].
  - apply NoDup_app. split; [done|]. split; [|done].
    intros x Hx1 Hx2. by apply (Hlive x Hx2).
  - apply Forall_app. split; [done|]. apply Forall_forall.
    intros x Hx. by apply Hlive.
  - by rewrite deletes_app.
Qed.

Lemma load_type_unchanged p st a st' : load_type p st = Done a st' → st' = st.
Proof.
  unfold load_type. destruct (heap st !! p) as [[? [[?|]|?]]|]; by intros [= _ ->].
Qed.

Lemma releases_only_load_tag p : releases_only (load_tag p).
Proof.
  apply releases_only_unchanged. intros st a st' (t & st1 & H1 & H2)%bind_inv.
  apply load_type_unchanged in H1 as ->. by injection H2.
Qed.

Lemma releases_only_load_elements p : releases_only (load_elements p).
Proof.
  apply releases_only_unchanged. intros st a st' (t & st1 & H1 & H2)%bind_inv.
  apply load_type_unchanged in H1 as ->. by injection H2.
Qed.

Lemma load_slot_inv p i st a st' :
  load_slot p i st = Done a st' → st' = log (EvRead p i) st.
Proof.
  unfold load_slot. destruct (heap st !! p) as [[? [?|slots]]|]; [done| |done].
  destruct (slots !! i) as [[?|]|]; by intros [= _ ->].
Qed.

Lemma releases_only_load_slot p i : releases_only (load_slot p i).
Proof.
  intros st a st' ->%load_slot_inv. exists [EvRead p i].
  split; [done|]. split; [done|]. split; [constructor|]. by split; [constructor|].
Qed.

Lemma releases_only_free p : releases_only (free p).
Proof.
  intros st a st'. unfold free. destruct (is_null p).
  { intros [= _ <-]. exists []. rewrite app_nil_r.
    split; [done|]. split; [done|]. split; [constructor|].
    by split; [constructor|]. }
  destruct (heap st !! p) as [[[] c]|] eqn:Hp; [|done..].
  intros [= _ <-]. exists [EvFree p]. split; [done|]. split; [done|].
  split; [apply NoDup_singleton|]. split; [|done].
  apply Forall_singleton. unfold malloced. by rewrite Hp.
Qed.

Lemma releases_only_ret {A} (a : A) : releases_only (ret a).
Proof. apply releases_only_unchanged. by intros st b st' [= _ ->]. Qed.

Lemma releases_only_destroy_loop destroy types :
  (∀ c, releases_only (destroy c)) →
  ∀ fuel i, releases_only (destroy_loop destroy fuel types i).
Proof.
  intros Hd. induction fuel as [|fuel IH]; intros i; [done|]. simpl.
  apply releases_only_bind; [apply releases_only_load_slot|]. intros c.
  destruct (is_null c); [apply releases_only_ret|].
  apply releases_only_bind; [apply releases_only_load_slot|]. intros arg.
  apply releases_only_bind; [apply Hd|]. intros _. apply IH.
Qed.

Lemma releases_only_destroy_array_body destroy fuel types :
  (∀ c, releases_only (destroy c)) →
  releases_only (destroy_array_body destroy fuel types).
Proof.
  intros Hd. apply releases_only_bind.
  - by apply releases_only_destroy_loop.
  - intros _. apply releases_only_free.
Qed.

Lemma releases_only_destroy fuel : ∀ p, releases_only (ffi_type_destroy fuel p).
Proof.
  induction fuel as [|fuel IH]; intros p; [done|]. simpl.
  destruct (is_null p); [apply releases_only_ret|].
  apply releases_only_bind; [apply releases_only_load_tag|]. intros tag.
  destruct (is_aggregate tag); [|apply releases_only_ret].
  apply releases_only_bind; [apply releases_only_load_elements|]. intros es.
  apply releases_only_bind; [by apply releases_only_destroy_array_body|].
  intros _. apply releases_only_free.
Qed.

Lemma deletes_subseteq F : ∀ h, deletes F h ⊆ h.
Proof.
  induction F as [|a F IH]; intros h; [done|].
  change (deletes (a :: F) h) with (deletes F (delete a h)).
  etrans; [apply IH|apply delete_subseteq].
Qed.

(** X10. Whatever the heap, a run of [ffi_type_destroy] or of
    [ffi_type_destroy_array] that returns has allocated nothing and written
    nothing: the heap it leaves is the heap it found without the blocks it
    released, each of which had come from [malloc], was live, and was
    released once. *)
Theorem destroy_only_releases fuel p st st' :
  ffi_type_destroy fuel p st = Done tt st' ∨
  ffi_type_destroy_array fuel p st = Done tt st' →
  ∃ tr,
    trace st' = trace st ++ tr ∧
    mallocs_of tr = [] ∧
    NoDup (frees_of tr) ∧
    Forall (malloced (heap st)) (frees_of tr) ∧
    heap st' = deletes (frees_of tr) (heap st) ∧
    heap st' ⊆ heap st.
Proof.
  intros Hrun.
  assert (∃ tr, trace st' = trace st ++ tr ∧ mallocs_of tr = [] ∧
            NoDup (frees_of tr) ∧ Forall (malloced (heap st)) (frees_of tr) ∧
            heap st' = deletes (frees_of tr) (heap st))
    as (tr & Ht & Hm & Hnd & Hmal & Hh).
  { destruct Hrun as [Hrun|Hrun].
    - by apply (releases_only_destroy fuel p st tt).
    - apply (releases_only_destroy_array_body (ffi_type_destroy fuel) fuel p
               (releases_only_destroy fuel) st tt). exact Hrun. }
  exists tr. repeat (split; [done|]). rewrite Hh. apply deletes_subseteq.
Qed.

Lemma keeps_blocks_unchanged {A} (m : M A) :
  (∀ st a st', m st = Done a st' → st' = st) → keeps_blocks m.
Proof.
  intros Hm st a st' ->%Hm. exists []. by rewrite app_nil_r.
Qed.

Lemma keeps_blocks_bind {A B} (m : M A) (k : A → M B) :
  keeps_blocks m → (∀ a, keeps_blocks (k a)) → keeps_blocks (m ≫= k).
Proof.
  intros Hm Hk st b st' (a & st1 & H1 & H2)%bind_inv.
  destruct (Hm _ _ _ H1) as (tr1 & Ht1 & Hf1 & Hd1).
  destruct (Hk a _ _ _ H2) as (tr2 & Ht2 & Hf2 & Hd2).
  exists (tr1 ++ tr2). unfold frees_of in *. rewrite omap_app, Hf1, Hf2.
  split; [by rewrite Ht2, Ht1, app_assoc|]. split; [done|]. by etrans.
Qed.

Lemma keeps_blocks_ret {A} (a : A) : keeps_blocks (ret a).
Proof. apply keeps_blocks_unchanged. by intros st b st' [= _ ->]. Qed.

Lemma keeps_blocks_load_tag p : keeps_blocks (load_tag p).
Proof.
  apply keeps_blocks_unchanged. intros st a st' (t & st1 & H1 & H2)%bind_inv.
  apply load_type_unchanged in H1 as ->. by injection H2.
Qed.

Lemma keeps_blocks_load_elements p : keeps_blocks (load_elements p).
Proof.
  apply keeps_blocks_unchanged. intros st a st' (t & st1 & H1 & H2)%bind_inv.
  apply load_type_unchanged in H1 as ->. by injection H2.
Qed.

Lemma keeps_blocks_load_slot p i : keeps_blocks (load_slot p i).
Proof. intros st a st' ->%load_slot_inv. by exists [EvRead p i]. Qed.

Lemma keeps_blocks_assert b : keeps_blocks (assert b).
Proof.
  apply keeps_blocks_unchanged. unfold assert. destruct b; [|done].
  by intros st a st' [= _ ->].
Qed.

Lemma keeps_blocks_malloc c : keeps_blocks (malloc c).
Proof.
  intros st a st'. unfold malloc. destruct (is_null (malloc_addr st)).
  - intros [= _ <-]. exists []. by rewrite app_nil_r.
  - intros [= _ <-]. exists [EvMalloc (malloc_addr st)].
    split; [done|]. split; [done|]. apply dom_insert_subseteq.
Qed.

Lemma keeps_blocks_store_slot p i v : keeps_blocks (store_slot p i v).
Proof.
  intros st a st'. unfold store_slot.
  destruct (heap st !! p) as [[m [?|slots]]|]; [done| |done].
  destruct (bool_decide (i < length slots)); [|done].
  intros [= _ <-]. exists []. rewrite app_nil_r.
  split; [done|]. split; [done|]. apply dom_insert_subseteq.
Qed.

Lemma keeps_blocks_store_elements p v : keeps_blocks (store_elements p v).
Proof.
  intros st a st'. unfold store_elements.
  destruct (heap st !! p) as [[m [[t|]|?]]|]; [|done..].
  intros [= _ <-]. exists []. rewrite app_nil_r.
  split; [done|]. split; [done|]. apply dom_insert_subseteq.
Qed.

Lemma keeps_blocks_memcpy_type dst src : keeps_blocks (memcpy_type dst src).
Proof.
  intros st a st'. unfold memcpy_type.
  destruct (heap st !! dst) as [[m [v|?]]|]; [|done..].
  destruct (heap st !! src) as [[m' [[t|]|?]]|]; [|done..].
  intros [= _ <-]. exists []. rewrite app_nil_r.
  split; [done|]. split; [done|]. apply dom_insert_subseteq.
Qed.

Lemma keeps_blocks_size_loop types : ∀ fuel i sz,
  keeps_blocks (size_loop fuel types i sz).
Proof.
  induction fuel as [|fuel IH]; intros i sz; [done|]. simpl.
  apply keeps_blocks_bind; [apply keeps_blocks_load_slot|]. intros c.
  destruct (is_null c); [apply keeps_blocks_ret|apply IH].
Qed.

Lemma keeps_blocks_clone_loop clone types copy :
  (∀ c, keeps_blocks (clone c)) →
  ∀ n i, keeps_blocks (clone_loop clone n types copy i).
Proof.
  intros Hc. induction n as [|n IH]; intros i; simpl; [apply keeps_blocks_ret|].
  apply keeps_blocks_bind; [apply keeps_blocks_load_slot|]. intros t.
  apply keeps_blocks_bind; [apply Hc|]. intros c.
  apply keeps_blocks_bind; [apply keeps_blocks_store_slot|]. intros _. apply IH.
Qed.

Lemma keeps_blocks_clone_array_body clone fuel types :
  (∀ c, keeps_blocks (clone c)) →
  keeps_blocks (clone_array_body clone fuel types).
Proof.
  intros Hc. apply keeps_blocks_bind; [apply keeps_blocks_size_loop|]. intros sz.
  apply keeps_blocks_bind; [apply keeps_blocks_malloc|]. intros copy.
  apply keeps_blocks_bind; [apply keeps_blocks_assert|]. intros _.
  apply keeps_blocks_bind; [by apply keeps_blocks_clone_loop|]. intros _.
  apply keeps_blocks_ret.
Qed.

Lemma keeps_blocks_clone fuel : ∀ p, keeps_blocks (ffi_type_clone fuel p).
Proof.
  induction fuel as [|fuel IH]; intros p; [done|]. simpl.
  destruct (is_null p); [apply keeps_blocks_ret|].
  apply keeps_blocks_bind; [apply keeps_blocks_load_tag|]. intros tag.
  destruct (is_aggregate tag); [|apply keeps_blocks_ret].
  apply keeps_blocks_bind; [apply keeps_blocks_malloc|]. intros copy.
  apply keeps_blocks_bind; [apply keeps_blocks_assert|]. intros _.
  apply keeps_blocks_bind; [apply keeps_blocks_memcpy_type|]. intros _.
  apply keeps_blocks_bind; [apply keeps_blocks_load_elements|]. intros es.
  apply keeps_blocks_bind; [by apply keeps_blocks_clone_array_body|]. intros arr.
  apply keeps_blocks_bind; [apply keeps_blocks_store_elements|]. intros _.
  apply keeps_blocks_ret.
Qed.

(** X11. Whatever the heap and the allocator, a run of [ffi_type_clone] or
    of [ffi_type_clone_array] that returns has released nothing: its trace
    has no [free], and every block that was live is still live. *)
Theorem clone_never_releases fuel p st c st' :
  ffi_type_clone fuel p st = Done c st' ∨
  ffi_type_clone_array fuel p st = Done c st' →
  ∃ tr,
    trace st' = trace st ++ tr ∧
    frees_of tr = [] ∧
    dom (heap st) ⊆ dom (heap st').
Proof.
  intros [Hrun|Hrun].
  - by apply (keeps_blocks_clone fuel p st c).
  - apply (keeps_blocks_clone_array_body (ffi_type_clone fuel) fuel p
             (keeps_blocks_clone fuel) st c). exact Hrun.
Qed.

End Support.

(** ** The closure of [test.c] *)

(** What [callback] computes, whenever the sum is an [int]. *)
Lemma callback_adds cif result args userdata m env a x :
  Closure.load_int userdata m = Some env →
  Closure.load_ptr args m = Some a →
  Closure.load_int a m = Some x →
  is_Some (m !! result) →
  (Closure.INT_MIN ≤ env + x ≤ Closure.INT_MAX)%Z →
  Closure.callback cif result args userdata m
  = Some (<[result := Closure.VInt (env + x)]> m).
Proof.
  intros He Ha Hx [v Hr] Hrange. unfold Closure.callback.
  rewrite He, Ha. simpl. rewrite Hx. simpl.
  unfold Closure.int_add. rewrite bool_decide_true by done. simpl.
  unfold Closure.store. by rewrite Hr.
Qed.

(** C8. With the call interface [(int) -> int] prepared and a closure bound
    to [callback] and to a context that holds 5, both with status [FFI_OK],
    a call of the entry point with 6 returns 11 and a call with 7 returns 12;
    [main] prints 11 and 12. *)
Theorem closure_adds_context :
  let m := {[1%N := Closure.VInt 5]} in
  let prepared :=
    Closure.ffi_prep_cif Closure.FFI_DEFAULT_ABI 1 Closure.ffi_type_sint [Closure.ffi_type_sint] in
  let bound :=
    Closure.ffi_prep_closure_loc Closure.ffi_closure_alloc prepared.2 Closure.callback 1 in
  prepared.1 = Closure.FFI_OK ∧ bound.1 = Closure.FFI_OK ∧
  fst <$> Closure.call_closure bound.2 [6%Z] m = Some 11%Z ∧
  fst <$> Closure.call_closure bound.2 [7%Z] m = Some 12%Z ∧
  Closure.main = Some [11%Z; 12%Z].
Proof. repeat split; by vm_compute. Qed.

(** ** The properties on a concrete heap *)

Lemma fresh_block_sound : malloc_sound fresh_block.
Proof.
  intros st _. apply not_elem_of_dom. unfold fresh_block.
  pose proof (is_fresh ({[NULL]} ∪ dom (heap st))) as Hfresh.
  intros Hin. apply Hfresh. apply elem_of_union. by right.
Qed.

Lemma fresh_block_total : malloc_total fresh_block.
Proof.
  intros st Heq. unfold fresh_block in Heq.
  pose proof (is_fresh ({[NULL]} ∪ dom (heap st))) as Hfresh.
  apply Hfresh. rewrite Heq. apply elem_of_union. left.
  by apply elem_of_singleton.
Qed.


Lemma atomic_is_shared_witness :
  content_at (heap sample_state) 1 = Some (CType (Some sint)) ∧
  type sint ≠ 13%N ∧ type sint ≠ 15%N ∧
  ffi_type_clone 13 15 fresh_block 1 1 sample_state = Done 1%N sample_state ∧
  ffi_type_destroy 13 15 1 1 sample_state = Done tt sample_state.
Proof.
  split; [evaluate|]. split; [evaluate|]. split; [evaluate|].
  apply (atomic_is_shared 13 15 fresh_block 0 sample_state 1 sint); evaluate.
Defined.

Lemma destroy_clone_restores_witness :
  valid 13 15 (heap sample_state) sample_tree ∧
  fuel_of sample_tree ≤ 4 ∧
  (∃ t' st1 st2,
     ffi_type_clone 13 15 fresh_block 4 (root sample_tree) sample_state
       = Done (root t') st1 ∧
     ffi_type_destroy 13 15 4 (root t') st1 = Done tt st2 ∧
     clone_rel sample_tree t' ∧
     (∀ a, a ∈ freed t' → heap sample_state !! a = None ∧ a ∉ addrs sample_tree) ∧
     trace st2 = trace st1 ++ destroy_trace t' ∧
     frees_of (destroy_trace t') = freed t' ∧
     heap st2 = heap sample_state ∧
     valid 13 15 (heap st2) sample_tree) ∧
  (∀ p ty cs rest, sample_tree = Agg p ty cs rest →
     ∃ copy st1 st2,
       ffi_type_clone_array 13 15 fresh_block 4 (elements ty) sample_state
         = Done copy st1 ∧
       heap sample_state !! copy = None ∧
       ffi_type_destroy_array 13 15 4 copy st1 = Done tt st2 ∧
       heap st2 = heap sample_state).
Proof.
  split; [evaluate|]. split; [evaluate|].
  apply (destroy_clone_restores 13 15 fresh_block fresh_block_sound fresh_block_total
           sample_tree sample_state 4); evaluate.
Defined.

Lemma clone_array_elementwise_witness :
  content_at (heap sample_state) 3
    = Some (CArray (slots_of (root <$> [Atom 1 sint; sample_inner]) [None])) ∧
  Forall (λ c, c ≠ NULL) (root <$> [Atom 1 sint; sample_inner]) ∧
  Forall (valid 13 15 (heap sample_state)) [Atom 1 sint; sample_inner] ∧
  fuel_of_array [Atom 1 sint; sample_inner] ≤ 3 ∧
  ∃ copy cs' st',
    ffi_type_clone_array 13 15 fresh_block 3 3 sample_state = Done copy st' ∧
    heap sample_state !! copy = None ∧
    let sta := State sample_heap [EvRead 3 0; EvRead 3 1; EvRead 3 2] in
    let stb := State (<[copy := Block true (CArray (replicate 3 None))]> sample_heap)
                     (trace sta ++ [EvMalloc copy]) in
    copy = fresh_block sta ∧
    clone_each (ffi_type_clone 13 15 fresh_block 3) 3 copy 0
      ((root <$> [Atom 1 sint; sample_inner]) ++ [NULL])
      ((root <$> cs') ++ [NULL]) stb st' ∧
    content_at (heap st') copy
      = Some (CArray ((Some <$> (root <$> cs')) ++ [Some NULL])) ∧
    length cs' = 2 ∧
    Forall (λ c, c ≠ NULL) (root <$> cs') ∧
    Forall2 clone_rel [Atom 1 sint; sample_inner] cs' ∧
    Forall (valid 13 15 (heap st')) cs'.
Proof.
  split; [evaluate|]. split; [evaluate|]. split; [evaluate|]. split; [evaluate|].
  apply (clone_array_elementwise 13 15 fresh_block fresh_block_sound fresh_block_total
           3 [Atom 1 sint; sample_inner] [None] sample_state 3); evaluate.
Defined.

Lemma clone_aggregate_copies_witness :
  valid 13 15 (heap sample_state) sample_tree ∧
  fuel_of sample_tree ≤ 4 ∧
  ∃ copy arr' cs' st1 st2 st' st'',
    ffi_type_clone 13 15 fresh_block 4 2 sample_state = Done copy st' ∧
    copy = fresh_block sample_state ∧ copy ≠ NULL ∧ copy ≠ 2%N ∧
    heap sample_state !! copy = None ∧
    st1 = State (<[copy := Block true (CType (Some outer_struct))]> sample_heap)
                [EvMalloc copy] ∧
    ffi_type_clone_array 13 15 fresh_block 3 (elements outer_struct) st1
      = Done arr' st2 ∧
    st' = set_heap
            <[copy := Block true (CType (Some (Build_ffi_type 8 4 13 arr')))]> st2 ∧
    is_aggregate 13 15 (type (Build_ffi_type 8 4 13 arr')) = true ∧
    clone_rel sample_tree (Agg copy (Build_ffi_type 8 4 13 arr') cs' []) ∧
    valid 13 15 (heap st') (Agg copy (Build_ffi_type 8 4 13 arr') cs' []) ∧
    ffi_type_destroy 13 15 4 copy st' = Done tt st'' ∧
    heap st'' !! copy = None.
Proof.
  split; [evaluate|]. split; [evaluate|].
  apply (clone_aggregate_copies 13 15 fresh_block fresh_block_sound fresh_block_total
           2 outer_struct [Atom 1 sint; sample_inner] [None] sample_state 3);
    evaluate.
Defined.

Lemma destroy_releases_once_witness :
  owned 13 15 (heap sample_state) sample_tree ∧
  fuel_of sample_tree ≤ 4 ∧
  ∃ st' tr,
    ffi_type_destroy 13 15 4 2 sample_state = Done tt st' ∧
    trace st' = trace sample_state ++ tr ∧
    frees_of tr = [5; 4; 3; 2]%N ∧
    (∀ a, a ∈ frees_of tr ↔ ∃ s, s ∈ subtrees sample_tree ∧ owns s a) ∧
    NoDup (frees_of tr) ∧
    (∀ a, a ∈ frees_of tr →
       is_Some (heap sample_state !! a) ∧ heap st' !! a = None) ∧
    (∀ a, a ∉ frees_of tr → heap st' !! a = heap sample_state !! a).
Proof.
  split; [evaluate|]. split; [evaluate|].
  apply (destroy_releases_once 13 15
           2 outer_struct [Atom 1 sint; sample_inner] [None] sample_state 4);
    evaluate.
Defined.

Lemma destroy_array_in_order_witness :
  owned_array 13 15 (heap sample_state) 3 [Atom 1 sint; sample_inner] [None] ∧
  fuel_of_array [Atom 1 sint; sample_inner] ≤ 3 ∧
  ∃ st1 st' tr,
    ffi_type_destroy_array 13 15 3 3 sample_state = Done tt st' ∧
    destroy_each (ffi_type_destroy 13 15 3) 3 0 [1; 4]%N sample_state st1 ∧
    free 3 (log (EvRead 3 2) st1) = Done tt st' ∧
    trace st' = trace sample_state ++ tr ∧
    reads_of 3 tr = [0; 0; 1; 1; 2] ∧
    Forall (λ i, i ≤ 2) (reads_of 3 tr) ∧
    last tr = Some (EvFree 3) ∧
    heap st' = deletes [5; 4; 3]%N (heap sample_state) ∧
    ([Atom 1 sint; sample_inner] = [] →
     st' = State (delete 3%N (heap sample_state))
                 (trace sample_state ++ [EvRead 3 0; EvFree 3])).
Proof.
  split; [evaluate|]. split; [evaluate|].
  apply (destroy_array_in_order 13 15
           3 [Atom 1 sint; sample_inner] [None] sample_state 3); evaluate.
Defined.

Lemma always_terminates_witness :
  owned 13 15 (heap sample_state) sample_tree ∧
  ∀ fuel, fuel_of sample_tree ≤ fuel →
    (∃ c st', ffi_type_clone 13 15 fresh_block fuel 2 sample_state = Done c st') ∧
    (∃ st', ffi_type_destroy 13 15 fuel 2 sample_state = Done tt st') ∧
    (∀ p ty cs rest, sample_tree = Agg p ty cs rest →
       length cs < fuel_of sample_tree ∧
       (∀ c, c ∈ cs → fuel_of c < fuel_of sample_tree) ∧
       (∃ a st',
          ffi_type_clone_array 13 15 fresh_block fuel (elements ty) sample_state
          = Done a st') ∧
       (∃ st',
          ffi_type_destroy_array 13 15 fuel (elements ty) sample_state
          = Done tt st')).
Proof.
  split; [evaluate|].
  apply (always_terminates 13 15 fresh_block fresh_block_sound fresh_block_total
           sample_tree sample_state); evaluate.
Defined.

Lemma clone_shares_atoms_witness :
  valid 13 15 (heap sample_state) sample_tree ∧
  fuel_of sample_tree ≤ 4 ∧
  ∃ copy ty' cs' st',
    ffi_type_clone 13 15 fresh_block 4 2 sample_state = Done copy st' ∧
    clone_rel sample_tree (Agg copy ty' cs' []) ∧
    owned 13 15 (heap st') (Agg copy ty' cs' []) ∧
    content_at (heap st') copy = Some (CType (Some ty')) ∧
    content_at (heap st') (elements ty')
      = Some (CArray (slots_of (root <$> cs') [])) ∧
    heap sample_state !! copy = None ∧
    heap sample_state !! elements ty' = None ∧
    (∀ i a tya,
       (root <$> [Atom 1 sint; sample_inner]) !! i = Some a →
       content_at (heap sample_state) a = Some (CType (Some tya)) →
       is_aggregate 13 15 (type tya) = false →
       (root <$> cs') !! i = Some a) ∧
    (∀ i a tya,
       (root <$> [Atom 1 sint; sample_inner]) !! i = Some a →
       content_at (heap sample_state) a = Some (CType (Some tya)) →
       is_aggregate 13 15 (type tya) = true →
       ∃ a', (root <$> cs') !! i = Some a' ∧ heap sample_state !! a' = None) ∧
    atoms (Agg copy ty' cs' []) = atoms sample_tree ∧
    (∀ a, a ∈ atoms (Agg copy ty' cs' []) →
       atomic_at 13 15 (heap sample_state) a ∧ atomic_at 13 15 (heap st') a ∧
       heap st' !! a = heap sample_state !! a ∧
       a ∉ freed (Agg copy ty' cs' [])) ∧
    (∀ a, a ∈ freed (Agg copy ty' cs' []) → heap sample_state !! a = None).
Proof.
  split; [evaluate|]. split; [evaluate|].
  apply (clone_shares_atoms 13 15 fresh_block fresh_block_sound fresh_block_total
           2 outer_struct [Atom 1 sint; sample_inner] [None] sample_state 4);
    evaluate.
Defined.

(** ** The functions run on the sample heap *)

(** Destroying the sample tree reads and releases in post-order and leaves
    the static descriptor alone. *)
Example sample_destroy :
  ffi_type_destroy 13 15 4 2 sample_state
  = Done tt (State {[1%N := Block false (CType (Some sint))]}
      [EvRead 3 0; EvRead 3 0; EvRead 3 1; EvRead 3 1;
       EvRead 5 0; EvRead 5 0; EvRead 5 1; EvFree 5; EvFree 4;
       EvRead 3 2; EvFree 3; EvFree 2]).
Proof. by vm_compute. Qed.

(** Cloning the sample tree allocates four blocks and shares block 1. *)
Example sample_clone :
  match ffi_type_clone 13 15 fresh_block 4 2 sample_state with
  | Done c st =>
      Some (c, heap st !! c,
            heap st !! 7%N, heap st !! 8%N, heap st !! 9%N, heap st !! 2%N)
  | _ => None
  end
  = Some (6%N,
      Some (Block true (CType (Some (Build_ffi_type 8 4 13 7)))),
      Some (Block true (CArray [Some 1%N; Some 8%N; Some NULL])),
      Some (Block true (CType (Some (Build_ffi_type 4 4 13 9)))),
      Some (Block true (CArray [Some 1%N; Some NULL])),
      Some (Block true (CType (Some outer_struct)))).
Proof. by vm_compute. Qed.

(** Clone, then destroy the clone: the heap is the sample heap again. *)
Example sample_clone_destroy :
  match (c ← ffi_type_clone 13 15 fresh_block 4 2;
         ffi_type_destroy 13 15 4 c) sample_state with
  | Done _ st => Some (heap st)
  | _ => None
  end = Some sample_heap.
Proof. by vm_compute. Qed.

(** An array that starts with the sentinel: one read, one release. *)
Example empty_array_destroy :
  ffi_type_destroy_array 13 15 1 7
    (State {[7%N := Block true (CArray [Some NULL; None])]} [])
  = Done tt (State ∅ [EvRead 7 0; EvFree 7]).
Proof. by vm_compute. Qed.

(** Without exclusive ownership [ffi_type_destroy] is undefined: here both
    entries of the array at 3 are the aggregate at 4, which is released
    twice. *)
Example shared_child_destroy :
  ffi_type_destroy 13 15 4 2
    (State (<[3%N := Block true (CArray [Some 4%N; Some 4%N; Some NULL])]>
              sample_heap) [])
  = Undefined.
Proof. by vm_compute. Qed.

(** Too little fuel is reported as such, never as a result. *)
Example sample_destroy_out_of_fuel :
  ffi_type_destroy 13 15 3 2 sample_state = OutOfFuel.
Proof. by vm_compute. Qed.

(** ** More about [callback] *)

(** X12. When the sum is an [int], [callback] leaves it in the result cell
    and changes no other cell: not the context, not the argument. *)
Theorem callback_writes_sum cif result args userdata m env a x :
  Closure.load_int userdata m = Some env →
  Closure.load_ptr args m = Some a →
  Closure.load_int a m = Some x →
  is_Some (m !! result) →
  (Closure.INT_MIN ≤ env + x ≤ Closure.INT_MAX)%Z →
  ∃ m',
    Closure.callback cif result args userdata m = Some m' ∧
    Closure.load_int result m' = Some (env + x)%Z ∧
    ∀ c, c ≠ result → m' !! c = m !! c.
Proof.
  intros He Ha Hx Hr Hrange. exists (<[result := Closure.VInt (env + x)]> m).
  split; [by apply (callback_adds cif result args userdata m env a x)|]. split.
  - unfold Closure.load_int. by rewrite lookup_insert_eq.
  - intros c Hc. by rewrite lookup_insert_ne.
Qed.

(** X13. [callback] adds without a check. When the context, the argument
    pointer and the argument can be read and the result cell can be written,
    the call is undefined exactly when the sum of the context and the
    argument is not an [int], and then it is the signed addition that is
    undefined. *)
Theorem callback_overflow_is_undefined cif result args userdata m env a x :
  Closure.load_int userdata m = Some env →
  Closure.load_ptr args m = Some a →
  Closure.load_int a m = Some x →
  is_Some (m !! result) →
  (Closure.callback cif result args userdata m = None
   ↔ ¬ (Closure.INT_MIN ≤ env + x ≤ Closure.INT_MAX)%Z) ∧
  (Closure.callback cif result args userdata m = None
   ↔ Closure.int_add env x = None).
Proof.
  intros He Ha Hx [v Hv]. unfold Closure.callback.
  rewrite He, Ha. simpl. rewrite Hx. simpl.
  unfold Closure.int_add. case_bool_decide as Hrange; simpl.
  - unfold Closure.store. rewrite Hv. by repeat split.
  - by repeat split.
Qed.

(** ** The further properties on concrete heaps *)

Lemma destroyed_is_dangling_witness :
  owned 13 15 (heap sample_state) sample_tree ∧
  fuel_of sample_tree ≤ 4 ∧
  ∃ st',
    ffi_type_destroy 13 15 4 2 sample_state = Done tt st' ∧
    ∀ fuel',
      ffi_type_destroy 13 15 (S fuel') 2 st' = Undefined ∧
      ffi_type_clone 13 15 fresh_block (S fuel') 2 st' = Undefined ∧
      ffi_type_destroy_array 13 15 (S fuel') (elements outer_struct) st' = Undefined ∧
      ffi_type_clone_array 13 15 fresh_block (S fuel') (elements outer_struct) st'
        = Undefined.
Proof.
  split; [evaluate|]. split; [evaluate|].
  apply (destroyed_is_dangling 13 15 fresh_block
           2 outer_struct [Atom 1 sint; sample_inner] [None] sample_state 4);
    evaluate.
Defined.

Lemma null_array_is_undefined_witness :
  let ty := Build_ffi_type 0 1 13 NULL in
  let st := State {[2%N := Block true (CType (Some ty))]} [] in
  heap st !! NULL = None ∧ 2%N ≠ NULL ∧
  content_at (heap st) 2 = Some (CType (Some ty)) ∧
  is_aggregate 13 15 (type ty) = true ∧ elements ty = NULL ∧
  ffi_type_destroy_array 13 15 1 NULL st = Undefined ∧
  ffi_type_clone_array 13 15 fresh_block 1 NULL st = Undefined ∧
  ffi_type_destroy 13 15 2 2 st = Undefined.
Proof.
  intros ty st. do 5 (split; [evaluate|]).
  apply (null_array_is_undefined 13 15 fresh_block 0 st 2 ty); evaluate.
Defined.

Lemma unterminated_atoms :
  Forall (atomic_at 13 15 unterminated_heap) [1; 1]%N.
Proof.
  repeat (apply Forall_cons_2; [by exists sint|]).
  apply Forall_nil_2.
Defined.

Lemma unterminated_array_is_undefined_witness :
  let st := State unterminated_heap [] in
  content_at (heap st) 7 = Some (CArray ((Some <$> [1; 1]%N) ++ [])) ∧
  Forall (λ c, c ≠ NULL) [1; 1]%N ∧
  (∀ v, head ([] : list (option N)) ≠ Some (Some v)) ∧
  length [1; 1]%N < 3 ∧
  Forall (atomic_at 13 15 (heap st)) [1; 1]%N ∧
  size_loop 3 7 0 1 st = Undefined ∧
  ffi_type_clone_array 13 15 fresh_block 3 7 st = Undefined ∧
  destroy_loop (ffi_type_destroy 13 15 3) 3 7 0 st = Undefined ∧
  ffi_type_destroy_array 13 15 3 7 st = Undefined.
Proof.
  intros st. split; [evaluate|]. split; [evaluate|].
  split; [done|]. split; [evaluate|]. split; [exact unterminated_atoms|].
  destruct (unterminated_array_is_undefined 13 15 fresh_block 7 [1; 1]%N [] st 3)
    as (Hsize & Hclone & Hdestroy); [evaluate|evaluate|done|evaluate|].
  destruct (Hdestroy unterminated_atoms) as [Hloop Harr].
  by repeat split.
Defined.

Lemma allocation_failure_aborts_witness :
  valid 13 15 (heap sample_state) sample_tree ∧
  (∀ s, no_memory s = NULL) ∧
  length [Atom 1 sint; sample_inner] < 3 ∧
  ffi_type_clone 13 15 no_memory 4 2 sample_state = Aborted ∧
  ffi_type_clone_array 13 15 no_memory 3 (elements outer_struct) sample_state
    = Aborted.
Proof.
  split; [evaluate|]. split; [done|]. split; [evaluate|].
  apply (allocation_failure_aborts 13 15 no_memory
           2 outer_struct [Atom 1 sint; sample_inner] [None] sample_state 3);
    [evaluate|done|evaluate].
Defined.

Lemma destroy_static_is_undefined_witness :
  let st := State static_heap [] in
  valid 13 15 (heap st) sample_tree ∧
  owned_array 13 15 (heap st) (elements outer_struct)
    [Atom 1 sint; sample_inner] [None] ∧
  (2%N ∉ [Atom 1 sint; sample_inner] ≫= freed) ∧
  blk_malloc <$> heap st !! 2%N = Some false ∧
  fuel_of sample_tree ≤ 4 ∧
  ∃ st1 tr,
    ffi_type_destroy_array 13 15 3 (elements outer_struct) st = Done tt st1 ∧
    trace st1 = trace st ++ tr ∧
    frees_of tr = ([Atom 1 sint; sample_inner] ≫= freed) ++ [elements outer_struct] ∧
    heap st1 = deletes (([Atom 1 sint; sample_inner] ≫= freed)
                          ++ [elements outer_struct]) (heap st) ∧
    (∀ a, a ∈ ([Atom 1 sint; sample_inner] ≫= freed) ++ [elements outer_struct] →
       heap st1 !! a = None) ∧
    heap st1 !! 2%N = heap st !! 2%N ∧
    free 2 st1 = Undefined ∧
    ffi_type_destroy 13 15 4 2 st = Undefined.
Proof.
  intros st.
  assert (Hnot : 2%N ∉ [Atom 1 sint; sample_inner] ≫= freed)
    by compute_done.
  split; [evaluate|]. split; [evaluate|].
  split; [exact Hnot|]. split; [evaluate|]. split; [evaluate|].
  apply (destroy_static_is_undefined 13 15
           2 outer_struct [Atom 1 sint; sample_inner] [None] st 3);
    [evaluate|evaluate|exact Hnot|evaluate|evaluate].
Defined.

Lemma clone_keeps_source_witness :
  let st := State shared_heap [] in
  valid 13 15 (heap st) shared_tree ∧
  fuel_of shared_tree ≤ 4 ∧
  ∃ t' st',
    ffi_type_clone 13 15 fresh_block 4 (root shared_tree) st = Done (root t') st' ∧
    heap st ⊆ heap st' ∧
    valid 13 15 (heap st') shared_tree ∧
    (owned 13 15 (heap st) shared_tree → owned 13 15 (heap st') shared_tree) ∧
    owned 13 15 (heap st') t' ∧
    (∀ a, a ∈ freed t' → a ∉ addrs shared_tree).
Proof.
  intros st. split; [evaluate|]. split; [evaluate|].
  apply (clone_keeps_source 13 15 fresh_block fresh_block_sound fresh_block_total
           shared_tree st 4); evaluate.
Defined.

Lemma clone_allocates_per_aggregate_witness :
  valid 13 15 (heap sample_state) sample_tree ∧
  fuel_of sample_tree ≤ 4 ∧
  ∃ c st',
    ffi_type_clone 13 15 fresh_block 4 (root sample_tree) sample_state = Done c st' ∧
    base.size (heap st') = base.size (heap sample_state) + 2 * aggregates sample_tree.
Proof.
  split; [evaluate|]. split; [evaluate|].
  apply (clone_allocates_per_aggregate 13 15 fresh_block
           fresh_block_sound fresh_block_total sample_tree sample_state 4);
    evaluate.
Defined.

Lemma destroy_source_keeps_clone_witness :
  owned 13 15 (heap sample_state) sample_tree ∧
  fuel_of sample_tree ≤ 4 ∧
  ∃ t' st1 st2 st3,
    ffi_type_clone 13 15 fresh_block 4 (root sample_tree) sample_state
      = Done (root t') st1 ∧
    ffi_type_destroy 13 15 4 (root sample_tree) st1 = Done tt st2 ∧
    clone_rel sample_tree t' ∧
    owned 13 15 (heap st2) t' ∧
    (∀ a, a ∈ freed sample_tree → heap st2 !! a = None) ∧
    ffi_type_destroy 13 15 4 (root t') st2 = Done tt st3.
Proof.
  split; [evaluate|]. split; [evaluate|].
  apply (destroy_source_keeps_clone 13 15 fresh_block
           fresh_block_sound fresh_block_total sample_tree sample_state 4);
    evaluate.
Defined.

Lemma destroy_spares_atoms_witness :
  owned 13 15 (heap sample_state) sample_tree ∧
  fuel_of sample_tree ≤ 4 ∧
  ∃ st',
    ffi_type_destroy 13 15 4 (root sample_tree) sample_state = Done tt st' ∧
    (∀ a, a ∈ atoms sample_tree →
       heap st' !! a = heap sample_state !! a ∧ atomic_at 13 15 (heap st') a) ∧
    base.size (heap st') + 2 * aggregates sample_tree = base.size (heap sample_state).
Proof.
  split; [evaluate|]. split; [evaluate|].
  apply (destroy_spares_atoms 13 15 sample_tree sample_state 4); evaluate.
Defined.

Lemma destroy_only_releases_witness :
  let st' := State {[1%N := Block false (CType (Some sint))]}
      [EvRead 3 0; EvRead 3 0; EvRead 3 1; EvRead 3 1;
       EvRead 5 0; EvRead 5 0; EvRead 5 1; EvFree 5; EvFree 4;
       EvRead 3 2; EvFree 3; EvFree 2] in
  (ffi_type_destroy 13 15 4 2 sample_state = Done tt st' ∨
   ffi_type_destroy_array 13 15 4 2 sample_state = Done tt st') ∧
  ∃ tr,
    trace st' = trace sample_state ++ tr ∧
    mallocs_of tr = [] ∧
    NoDup (frees_of tr) ∧
    Forall (malloced (heap sample_state)) (frees_of tr) ∧
    heap st' = deletes (frees_of tr) (heap sample_state) ∧
    heap st' ⊆ heap sample_state.
Proof.
  intros st'.
  assert (Hrun : ffi_type_destroy 13 15 4 2 sample_state = Done tt st')
    by (by vm_compute).
  split; [by left|].
  apply (destroy_only_releases 13 15 4 2 sample_state st'). by left.
Defined.

Lemma clone_never_releases_witness :
  let st' := State (<[6%N := Block true (CArray [Some 1%N; Some NULL])]> sample_heap)
      [EvRead 5 0; EvRead 5 1; EvMalloc 6; EvRead 5 0; EvRead 5 1] in
  (ffi_type_clone 13 15 fresh_block 2 5 sample_state = Done 6%N st' ∨
   ffi_type_clone_array 13 15 fresh_block 2 5 sample_state = Done 6%N st') ∧
  ∃ tr,
    trace st' = trace sample_state ++ tr ∧
    frees_of tr = [] ∧
    dom (heap sample_state) ⊆ dom (heap st').
Proof.
  intros st'.
  assert (Hrun : ffi_type_clone_array 13 15 fresh_block 2 5 sample_state
                 = Done 6%N st') by (by vm_compute).
  split; [by right|].
  apply (clone_never_releases 13 15 fresh_block 2 5 sample_state 6%N st').
  by right.
Defined.

Lemma callback_writes_sum_witness :
  let m : gmap N Closure.value :=
    <[1%N := Closure.VInt 5]> (<[2%N := Closure.VPtr 3]>
      (<[3%N := Closure.VInt 6]> (<[4%N := Closure.VUndef]> ∅))) in
  let cif := Closure.Build_ffi_cif Closure.FFI_DEFAULT_ABI 1
               [Closure.ffi_type_sint] Closure.ffi_type_sint in
  Closure.load_int 1%N m = Some 5%Z ∧
  Closure.load_ptr 2%N m = Some 3%N ∧
  Closure.load_int 3%N m = Some 6%Z ∧
  is_Some (m !! 4%N) ∧
  (Closure.INT_MIN ≤ 5 + 6 ≤ Closure.INT_MAX)%Z ∧
  ∃ m',
    Closure.callback cif 4%N 2%N 1%N m = Some m' ∧
    Closure.load_int 4%N m' = Some (5 + 6)%Z ∧
    ∀ c, c ≠ 4%N → m' !! c = m !! c.
Proof.
  intros m cif. split; [done|]. split; [done|]. split; [done|].
  split; [by eexists|]. split; [done|].
  apply (callback_writes_sum cif 4%N 2%N 1%N m 5%Z 3%N 6%Z); done.
Defined.

Lemma callback_overflow_is_undefined_witness :
  let m : gmap N Closure.value :=
    <[1%N := Closure.VInt 2147483647]> (<[2%N := Closure.VPtr 3]>
      (<[3%N := Closure.VInt 1]> (<[4%N := Closure.VUndef]> ∅))) in
  let cif := Closure.Build_ffi_cif Closure.FFI_DEFAULT_ABI 1
               [Closure.ffi_type_sint] Closure.ffi_type_sint in
  Closure.load_int 1%N m = Some 2147483647%Z ∧
  Closure.load_ptr 2%N m = Some 3%N ∧
  Closure.load_int 3%N m = Some 1%Z ∧
  is_Some (m !! 4%N) ∧
  (Closure.callback cif 4%N 2%N 1%N m = None
   ↔ ¬ (Closure.INT_MIN ≤ 2147483647 + 1 ≤ Closure.INT_MAX)%Z) ∧
  (Closure.callback cif 4%N 2%N 1%N m = None
   ↔ Closure.int_add 2147483647 1 = None) ∧
  Closure.callback cif 4%N 2%N 1%N m = None.
Proof.
  intros m cif. split; [done|]. split; [done|]. split; [done|].
  split; [by eexists|].
  destruct (callback_overflow_is_undefined cif 4%N 2%N 1%N m 2147483647%Z 3%N 1%Z)
    as [Hrange Hadd]; [done|done|done|by eexists|].
  split; [exact Hrange|]. split; [exact Hadd|].
  apply Hrange. unfold Closure.INT_MIN, Closure.INT_MAX. lia.
Defined.

Lemma clones_are_disjoint_witness :
  valid 13 15 (heap sample_state) sample_tree ∧
  fuel_of sample_tree ≤ 4 ∧
  ∃ t1 t2 st1 st2,
    ffi_type_clone 13 15 fresh_block 4 (root sample_tree) sample_state
      = Done (root t1) st1 ∧
    ffi_type_clone 13 15 fresh_block 4 (root sample_tree) st1 = Done (root t2) st2 ∧
    owned 13 15 (heap st2) t1 ∧ owned 13 15 (heap st2) t2 ∧
    (∀ a, a ∈ freed t1 → a ∉ freed t2) ∧
    valid 13 15 (heap st2) sample_tree.
Proof.
  split; [evaluate|]. split; [evaluate|].
  apply (clones_are_disjoint 13 15 fresh_block fresh_block_sound fresh_block_total
           sample_tree sample_state 4); evaluate.
Defined.
